(** * MinimalImage: a shallow embedding of [src/dso/util/MinimalImage.h]

    The C++ class template [dso::MinimalImage<T>] is a 2D pixel buffer with a
    row stride that either owns its backing array or wraps caller memory.
    This development embeds the class over an explicit heap of arrays and an
    explicit store of image objects, and proves the properties its
    specification states about construction, copy, move, pixel access, fills
    and marker stamping.

    Conventions of the embedding:
    - [int] is a [Z] inside [[min_int, max_int]]; an [int] operation whose
      mathematical result leaves that interval is signed overflow, which C++
      leaves undefined: it yields [Err UB];
    - [float] is IEEE 754 binary32, taken from [SpecFloat] at precision 24
      and maximal exponent 128, with round-to-nearest-even addition;
    - a [T*] is null or a block identifier with an element offset; the heap
      maps live blocks to their elements, and an element that was never
      written is [Indet];
    - [std::memset] and [std::memcpy] are modelled at element granularity.
      Their byte count [sizeof(T) * stride * h] is computed in [size_t]: a
      product [stride * h] that is not negative covers exactly [stride * h]
      elements (the multiplication does not wrap for an array that fits in
      memory), and a negative one converts to a count beyond any block. *)

From Stdlib Require Import ZArith Lia Bool.
From Stdlib Require Import Floats.SpecFloat.
From stdpp Require Import base option list gmap fin_maps.

Local Open Scope Z_scope.

(** ** Outcomes of running C++ code *)

Inductive fault : Type :=
  | UB                      (* undefined behaviour *)
  | bad_alloc.              (* [new T[n]] for n < 0 throws [std::bad_alloc]
                               or [bad_array_new_length], derived from it *)

Inductive result (A : Type) : Type :=
  | Ok (a : A)
  | Err (e : fault).
Arguments Ok {A} a.
Arguments Err {A} e.

#[global] Instance result_ret : MRet result := fun A a => Ok a.
#[global] Instance result_bind : MBind result := fun A B f r =>
  match r with
  | Ok a => f a
  | Err e => Err e
  end.

(** ** Machine integers *)

Definition min_int : Z := - 2 ^ 31.
Definition max_int : Z := 2 ^ 31 - 1.

Definition int_of (z : Z) : result Z :=
  if bool_decide (min_int <= z <= max_int) then Ok z else Err UB.

Definition int_add (a b : Z) : result Z := int_of (a + b).
Definition int_sub (a b : Z) : result Z := int_of (a - b).
Definition int_mul (a b : Z) : result Z := int_of (a * b).

(** ** Single-precision floats *)

Definition float : Type := spec_float.

Definition prec32 : Z := 24.
Definition emax32 : Z := 128.

Definition is_float (f : float) : Prop := valid_binary prec32 emax32 f = true.

(** [u + v] on [float] operands. *)
Definition float_add (u v : float) : float := SFadd prec32 emax32 u v.

(** The literal [0.5f], that is [2^23 * 2^-24]. *)
Definition half : float := S754_finite false 8388608 (-24).

(** Magnitude of [m * 2^e] with the fractional part discarded. *)
Definition trunc_mag (m : positive) (e : Z) : Z :=
  if bool_decide (0 <= e) then Z.pos m * 2 ^ e else Z.pos m / 2 ^ (- e).

(** [static_cast<int>(f)]: the fractional part is discarded (truncation
    toward zero); the behaviour is undefined when the truncated value is not
    representable in [int], which includes infinities and NaN. *)
Definition float_to_int (f : float) : result Z :=
  match f with
  | S754_zero _ => Ok 0
  | S754_finite s m e => int_of (if s then - trunc_mag m e else trunc_mag m e)
  | S754_infinity _ => Err UB
  | S754_nan => Err UB
  end.

(** The mathematical floor of a float, [None] for infinities and NaN.  This
    is the rounding the specification names; the code never calls it. *)
Definition float_floor (f : float) : option Z :=
  match f with
  | S754_zero _ => Some 0
  | S754_finite s m e =>
      let sm := if s then Z.neg m else Z.pos m in
      Some (if bool_decide (0 <= e) then sm * 2 ^ e else sm / 2 ^ (- e))
  | S754_infinity _ => None
  | S754_nan => None
  end.


(** ** Memory *)

Definition block : Type := positive.

Inductive ptr : Type :=
  | nullptr
  | Ptr (b : block) (ofs : Z).

#[global] Instance ptr_eq_dec : EqDecision ptr.
Proof. solve_decision. Defined.

(** An lvalue of element type: block and index inside the block. *)
Definition lval : Type := block * nat.

(** An array element of type [T]. *)
Inductive cell (T : Type) : Type :=
  | Indet            (* allocated, never written *)
  | Val (v : T).
Arguments Indet {T}.
Arguments Val {T} v.

(** Addresses of image objects; [this != &other] compares them. *)
Definition addr : Type := positive.

(** The data members of [MinimalImage<T>]. *)
Record MinimalImage : Type := mkMinimalImage {
  w : Z;          (* width of the image *)
  h : Z;          (* height of the image *)
  stride : Z;     (* number of elements per row, padding included *)
  data : ptr;
  ownData : bool;
}.

Section image.

(** The pixel type [T] and the value whose object representation is all
    zero bytes (numeric zero for the instantiations the header names). *)
Context {T : Type}.
Variable zero : T.

Abbreviation heap := (gmap block (list (cell T))).
Abbreviation objects := (gmap addr MinimalImage).

(** [p[i]] as an lvalue.  Forming it is undefined unless [p] points into a
    live block and the element lies inside that block. *)
Definition index (p : ptr) (i : Z) (m : heap) : result lval :=
  match p with
  | nullptr => Err UB
  | Ptr b ofs =>
      match m !! b with
      | None => Err UB
      | Some l =>
          if bool_decide (0 <= ofs + i < Z.of_nat (length l))
          then Ok (b, Z.to_nat (ofs + i))
          else Err UB
      end
  end.

(** Assignment through an lvalue. *)
Definition store (lv : lval) (v : T) (m : heap) : result heap :=
  match m !! lv.1 with
  | None => Err UB
  | Some l =>
      if bool_decide (lv.2 < length l)%nat
      then Ok (<[lv.1 := <[lv.2 := Val v]> l]> m)
      else Err UB
  end.

(** The element an lvalue designates; [None] when there is none. *)
Definition load (lv : lval) (m : heap) : option (cell T) :=
  m !! lv.1 ≫= fun l => l !! lv.2.

(** [new T[n]]: a fresh block of [n] uninitialised elements. *)
Definition new_array (n : Z) (m : heap) : result (ptr * heap) :=
  if bool_decide (n < 0) then Err bad_alloc
  else
    let b := fresh (dom m) in
    Ok (Ptr b 0, <[b := replicate (Z.to_nat n) Indet]> m).

(** [delete[] p]: [p] must be what [new T[n]] returned and still be live. *)
Definition delete_array (p : ptr) (m : heap) : result heap :=
  match p with
  | nullptr => Ok m
  | Ptr b ofs =>
      if bool_decide (ofs = 0) then
        match m !! b with
        | None => Err UB
        | Some _ => Ok (delete b m)
        end
      else Err UB
  end.

(** [std::memset(p, 0, sizeof(T) * n)]: [n] elements from [p] on become
    [zero].  The range must lie inside the live block [p] points into; a
    negative [n] converts to a [size_t] beyond any block. *)
Definition memset_zero (p : ptr) (n : Z) (m : heap) : result heap :=
  match p with
  | nullptr => Err UB
  | Ptr b ofs =>
      match m !! b with
      | None => Err UB
      | Some l =>
          if bool_decide (0 <= n /\ 0 <= ofs /\ ofs + n <= Z.of_nat (length l))
          then Ok (<[b := list_inserts (Z.to_nat ofs)
                            (replicate (Z.to_nat n) (Val zero)) l]> m)
          else Err UB
      end
  end.

(** [std::memcpy(dst, src, sizeof(T) * n)]: both ranges must lie inside
    live blocks and must not overlap. *)
Definition memcpy (dst src : ptr) (n : Z) (m : heap) : result heap :=
  match dst, src with
  | Ptr bd od, Ptr bs os =>
      match m !! bd, m !! bs with
      | Some ld, Some ls =>
          if bool_decide (0 <= n /\ 0 <= od /\ od + n <= Z.of_nat (length ld)
                          /\ 0 <= os /\ os + n <= Z.of_nat (length ls)
                          /\ (bd = bs -> od + n <= os \/ os + n <= od))
          then Ok (<[bd := list_inserts (Z.to_nat od)
                             (take (Z.to_nat n) (drop (Z.to_nat os) ls)) ld]> m)
          else Err UB
      | _, _ => Err UB
      end
  | _, _ => Err UB
  end.

(** *** Constructors and destructor *)

(** [MinimalImage(int w_, int h_, int stride_ = -1)] *)
Definition MinimalImage_new (w_ h_ stride_ : Z) (m : heap)
  : result (MinimalImage * heap) :=
  let stride' := if bool_decide (stride_ > 0) then stride_ else w_ in
  n ← int_mul stride' h_;
  '(p, m') ← new_array n m;
  Ok (mkMinimalImage w_ h_ stride' p true, m').

(** [MinimalImage(int w_, int h_, T* data_, int stride_ = -1)] *)
Definition MinimalImage_wrap (w_ h_ : Z) (data_ : ptr) (stride_ : Z)
  : MinimalImage :=
  let stride' := if bool_decide (stride_ > 0) then stride_ else w_ in
  mkMinimalImage w_ h_ stride' data_ false.

(** The default argument [stride_ = -1] of both constructors. *)
Definition default_stride : Z := -1.

(** [MinimalImage(const MinimalImage& other)] *)
Definition MinimalImage_copy (other : MinimalImage) (m : heap)
  : result (MinimalImage * heap) :=
  if ownData other then
    n ← int_mul (stride other) (h other);
    '(p, m1) ← new_array n m;
    m2 ← memcpy p (data other) (stride other * h other) m1;
    Ok (mkMinimalImage (w other) (h other) (stride other) p true, m2)
  else
    Ok (mkMinimalImage (w other) (h other) (stride other) (data other) false, m).

(** [MinimalImage(MinimalImage&& other)]: the new object and what is left
    of [other]. *)
Definition MinimalImage_move (other : MinimalImage)
  : MinimalImage * MinimalImage :=
  (mkMinimalImage (w other) (h other) (stride other) (data other) (ownData other),
   mkMinimalImage (w other) (h other) (stride other) nullptr false).

(** [if(ownData && data) delete[] data;] *)
Definition release (img : MinimalImage) (m : heap) : result heap :=
  if ownData img && bool_decide (data img <> nullptr)
  then delete_array (data img) m
  else Ok m.

(** [~MinimalImage()] *)
Definition MinimalImage_destroy (img : MinimalImage) (m : heap) : result heap :=
  release img m.

(** A reference to an image object that does not exist is dangling. *)
Definition deref (a : addr) (os : objects) : result MinimalImage :=
  match os !! a with
  | Some img => Ok img
  | None => Err UB
  end.

(** [MinimalImage& operator=(const MinimalImage& other)] on the object at
    [this]. *)
Definition assign (this other : addr) (os : objects) (m : heap)
  : result (objects * heap) :=
  if bool_decide (this <> other) then
    self ← deref this os;
    m1 ← release self m;
    o ← deref other os;
    if ownData o then
      n ← int_mul (stride o) (h o);
      '(p, m2) ← new_array n m1;
      m3 ← memcpy p (data o) (stride o * h o) m2;
      Ok (<[this := mkMinimalImage (w o) (h o) (stride o) p true]> os, m3)
    else
      Ok (<[this := mkMinimalImage (w o) (h o) (stride o) (data o) false]> os, m1)
  else Ok (os, m).

(** [MinimalImage& operator=(MinimalImage&& other)] on the object at
    [this]. *)
Definition move_assign (this other : addr) (os : objects) (m : heap)
  : result (objects * heap) :=
  if bool_decide (this <> other) then
    self ← deref this os;
    m1 ← release self m;
    o ← deref other os;
    let os1 := <[this := mkMinimalImage (w o) (h o) (stride o) (data o) (ownData o)]> os in
    let os2 := <[other := mkMinimalImage (w o) (h o) (stride o) nullptr false]> os1 in
    Ok (os2, m1)
  else Ok (os, m).

(** [MinimalImage* getClone() const]: the image object the returned pointer
    designates. *)
Definition getClone (img : MinimalImage) (m : heap)
  : result (MinimalImage * heap) :=
  '(clone, m1) ← MinimalImage_new (w img) (h img) (stride img) m;
  m2 ← memcpy (data clone) (data img) (stride img * h img) m1;
  Ok (clone, m2).

(** *** Pixel access *)

(** [T& at(int x, int y)] *)
Definition at_xy (img : MinimalImage) (x y : Z) (m : heap) : result lval :=
  row ← int_mul y (stride img);
  i ← int_add x row;
  index (data img) i m.

(** [const T& at(int x, int y) const] *)
Definition at_xy_const (img : MinimalImage) (x y : Z) (m : heap) : result lval :=
  row ← int_mul y (stride img);
  i ← int_add x row;
  index (data img) i m.

(** [T& at(int i)] *)
Definition at_i (img : MinimalImage) (i : Z) (m : heap) : result lval :=
  index (data img) i m.

(** [const T& at(int i) const] *)
Definition at_i_const (img : MinimalImage) (i : Z) (m : heap) : result lval :=
  index (data img) i m.

(** The statement [at(x, y) = val;] *)
Definition set_at (img : MinimalImage) (x y : Z) (val : T) (m : heap)
  : result heap :=
  lv ← at_xy img x y m;
  store lv val m.

(** Reading the pixel [at(x, y)] through the read-only accessor. *)
Definition get_at (img : MinimalImage) (x y : Z) (m : heap)
  : result (option (cell T)) :=
  lv ← at_xy_const img x y m;
  Ok (load lv m).

(** *** Loops *)

Fixpoint for_each (js : list Z) (body : Z -> heap -> result heap) (m : heap)
  : result heap :=
  match js with
  | [] => Ok m
  | i :: js' => m' ← body i m; for_each js' body m'
  end.

(** [for(int i = lo; i < hi; ++i) body]; the increment stays below [hi],
    so it cannot overflow. *)
Definition for_range (lo hi : Z) (body : Z -> heap -> result heap) (m : heap)
  : result heap :=
  for_each (seqZ lo (hi - lo)) body m.

(** *** Fills and markers *)

(** [void setBlack()] *)
Definition setBlack (img : MinimalImage) (m : heap) : result heap :=
  memset_zero (data img) (stride img * h img) m.

(** [void setConst(T val)] *)
Definition setConst (img : MinimalImage) (val : T) (m : heap) : result heap :=
  for_range 0 (h img) (fun y =>
    for_range 0 (w img) (fun x => set_at img x y val)) m.

(** [void setPixel1(const float &u, const float &v, T val)] *)
Definition setPixel1 (img : MinimalImage) (u v : float) (val : T) (m : heap)
  : result heap :=
  x ← float_to_int (float_add u half);
  y ← float_to_int (float_add v half);
  set_at img x y val m.

(** [void setPixel4(const float &u, const float &v, T val)] *)
Definition setPixel4 (img : MinimalImage) (u v : float) (val : T) (m : heap)
  : result heap :=
  iu ← float_to_int u;
  iv ← float_to_int v;
  x ← int_add iu 1; y ← int_add iv 1; m1 ← set_at img x y val m;
  x ← int_add iu 1; m2 ← set_at img x iv val m1;
  y ← int_add iv 1; m3 ← set_at img iu y val m2;
  set_at img iu iv val m3.

(** [void setPixel9(const int &u, const int &v, T val)] *)
Definition setPixel9 (img : MinimalImage) (u v : Z) (val : T) (m : heap)
  : result heap :=
  for_range (-1) (1 + 1) (fun dy =>
    for_range (-1) (1 + 1) (fun dx m0 =>
      x ← int_add u dx; y ← int_add v dy; set_at img x y val m0)) m.

(** [void setPixelCirc(const int &u, const int &v, T val)] *)
Definition setPixelCirc (img : MinimalImage) (u v : Z) (val : T) (m : heap)
  : result heap :=
  for_range (-3) (3 + 1) (fun i m0 =>
    x ← int_add u 3; y ← int_add v i; m1 ← set_at img x y val m0;
    x ← int_sub u 3; y ← int_add v i; m2 ← set_at img x y val m1;
    x ← int_add u 2; y ← int_add v i; m3 ← set_at img x y val m2;
    x ← int_sub u 2; y ← int_add v i; m4 ← set_at img x y val m3;
    x ← int_add u i; y ← int_sub v 3; m5 ← set_at img x y val m4;
    x ← int_add u i; y ← int_add v 3; m6 ← set_at img x y val m5;
    x ← int_add u i; y ← int_sub v 2; m7 ← set_at img x y val m6;
    x ← int_add u i; y ← int_add v 2; set_at img x y val m7) m.

End image.

(** ** Reading the embedding: validity of a buffer and pixel lvalues *)

Section image_model.

Context {T : Type}.

Abbreviation heap := (gmap block (list (cell T))).

(** The invariant the data model asks of a buffer: its storage pointer
    addresses a live block that holds [stride * h] elements from the pointer
    on, a count that [int] can represent. *)
Definition backed (img : MinimalImage) (m : heap)
    (b : block) (ofs : Z) (l : list (cell T)) : Prop :=
  data img = Ptr b ofs /\ m !! b = Some l /\ 0 <= ofs /\
  0 <= stride img * h img <= max_int /\
  ofs + stride img * h img <= Z.of_nat (length l).

(** Position of pixel [(x, y)] inside the block of a buffer whose storage
    starts at offset [ofs]. *)
Definition pixel_index (img : MinimalImage) (ofs : Z) (p : Z * Z) : nat :=
  Z.to_nat (ofs + (p.1 + p.2 * stride img)).

Definition in_image (img : MinimalImage) (p : Z * Z) : Prop :=
  0 <= p.1 < stride img /\ 0 <= p.2 < h img.

(** A sequence of statements [at(x, y) = val;], one per listed pixel. *)
Fixpoint writes (img : MinimalImage) (val : T) (pts : list (Z * Z)) (m : heap)
  : result heap :=
  match pts with
  | [] => Ok m
  | p :: pts' => m' ← set_at img p.1 p.2 val m; writes img val pts' m'
  end.

(** The effect of such a sequence on the elements of one block. *)
Definition paint (c : cell T) (ks : list nat) (l : list (cell T))
  : list (cell T) :=
  foldl (fun acc k => <[k := c]> acc) l ks.

(** Reading the element [at(i)] through the read-only linear accessor. *)
Definition get_i (img : MinimalImage) (i : Z) (m : heap)
  : result (option (cell T)) :=
  lv ← at_i_const img i m;
  Ok (load lv m).

(** The statement [at(i) = val;] *)
Definition poke (img : MinimalImage) (i : Z) (val : T) (m : heap)
  : result heap :=
  lv ← at_i img i m;
  store lv val m.

(** Two buffers read equal, existing elements over all [stride * h]
    positions of the first. *)
Definition same_contents (a c : MinimalImage) (m : heap) : Prop :=
  forall i, 0 <= i < stride a * h a ->
    get_i a i m = get_i c i m /\ exists x, get_i a i m = Ok (Some x).

(** Assigning any element of [a] succeeds and leaves every element of [c]
    as it was. *)
Definition independent (a c : MinimalImage) (m : heap) : Prop :=
  forall i val, 0 <= i < stride a * h a ->
    exists m', poke a i val m = Ok m' /\
      forall j, 0 <= j < stride c * h c -> get_i c j m' = get_i c j m.

(** Assigning any element of [a] succeeds and shows when the same element
    is read through [c]. *)
Definition shares (a c : MinimalImage) (m : heap) : Prop :=
  forall i val, 0 <= i < stride a * h a ->
    exists m', poke a i val m = Ok m' /\ get_i c i m' = Ok (Some (Val val)).

(** [dst] is a deep copy of the owning buffer [src]. *)
Definition deep_copy_of (src dst : MinimalImage) (m : heap) : Prop :=
  w dst = w src /\ h dst = h src /\ stride dst = stride src /\
  ownData dst = true /\
  (exists bs os bd od,
     data src = Ptr bs os /\ data dst = Ptr bd od /\ bs <> bd) /\
  same_contents src dst m /\ independent src dst m /\ independent dst src m.

(** Over all [stride * h] elements, [src] reads in the heap [m'] after a
    call what it read in the heap [m] before it, and [dst] reads in [m']
    what [src] read in [m]. *)
Definition copies_contents (src dst : MinimalImage) (m m' : heap) : Prop :=
  forall i, 0 <= i < stride src * h src ->
    get_i src i m' = get_i src i m /\ get_i dst i m' = get_i src i m.

(** [dst] is a non-owning view of the storage [src] borrows. *)
Definition alias_of (src dst : MinimalImage) (m : heap) : Prop :=
  w dst = w src /\ h dst = h src /\ stride dst = stride src /\
  ownData dst = false /\ data dst = data src /\
  shares src dst m /\ shares dst src m.

(** What [release] needs of a buffer: when it owns storage, its pointer is
    the one [new T[n]] returned and the block is still live. *)
Definition releasable (img : MinimalImage) (m : heap) : Prop :=
  ownData img = true -> data img <> nullptr ->
  exists b l, data img = Ptr b 0 /\ m !! b = Some l.

(** The pixels [setConst] assigns, in program order: rows [0 .. h), and in
    each row the columns [0 .. w). *)
Definition const_pixels (img : MinimalImage) : list (Z * Z) :=
  seqZ 0 (h img - 0) ≫= fun y => (fun x => (x, y)) <$> seqZ 0 (w img - 0).

(** Offsets, relative to the centre, of the pixels [setPixelCirc] assigns,
    in program order. *)
Definition circ_row (i : Z) : list (Z * Z) :=
  [(3, i); (-3, i); (2, i); (-2, i); (i, -3); (i, 3); (i, -2); (i, 2)].

Definition circ_offsets : list (Z * Z) :=
  seqZ (-3) 7 ≫= circ_row.

Definition shift (u v : Z) (d : Z * Z) : Z * Z := (u + d.1, v + d.2).

(** The square ring [setPixelCirc] covers: offsets at distance 2 or 3 from
    the centre in one direction and at most 3 in the other. *)
Definition on_ring (dx dy : Z) : Prop :=
  (Z.abs dx = 2 \/ Z.abs dx = 3 \/ Z.abs dy = 2 \/ Z.abs dy = 3) /\
  Z.abs dx <= 3 /\ Z.abs dy <= 3.

#[global] Instance on_ring_dec dx dy : Decision (on_ring dx dy).
Proof. unfold on_ring. apply _. Defined.

(** The pixels [setPixel4] assigns for truncated coordinates [(iu, iv)],
    in program order. *)
Definition block4 (iu iv : Z) : list (Z * Z) :=
  [(iu + 1, iv + 1); (iu + 1, iv); (iu, iv + 1); (iu, iv)].

(** Offsets of the pixels [setPixel9] assigns, in program order. *)
Definition block9_offsets : list (Z * Z) :=
  seqZ (-1) 3 ≫= fun dy => (fun dx => (dx, dy)) <$> seqZ (-1) 3.

(** All offsets within distance 3 of the centre. *)
Definition grid7 : list (Z * Z) :=
  seqZ (-3) 7 ≫= fun dx => (fun dy => (dx, dy)) <$> seqZ (-3) 7.

End image_model.

(** ** Concrete buffers of byte-like pixels, used to exercise the theorems *)

(** A 4x3 owning buffer over block 1, a 5x4 view with stride 5 of a
    20-element caller array in block 2, and a 7x7 owning buffer over
    block 3. *)
Definition small_image : MinimalImage := mkMinimalImage 4 3 4 (Ptr 1%positive 0) true.
Definition view_image : MinimalImage := MinimalImage_wrap 5 4 (Ptr 2%positive 0) 5.
Definition square_image : MinimalImage := mkMinimalImage 7 7 7 (Ptr 3%positive 0) true.

(** A 3x2 view with one padding column per row, into the caller array. *)
Definition padded_image : MinimalImage := MinimalImage_wrap 3 2 (Ptr 2%positive 0) 4.

Definition demo_heap : gmap block (list (cell Z)) :=
  {[ 1%positive := replicate 12 (Val 1);
     2%positive := replicate 20 (Val 2);
     3%positive := replicate 49 (Val 3) ]}.

(** Two image objects: an empty one at address 10 and [small_image] at
    address 11. *)
Definition demo_objects : gmap addr MinimalImage :=
  {[ 10%positive := mkMinimalImage 0 0 0 nullptr false;
     11%positive := small_image ]}.

(** A view of the storage [small_image] owns. *)
Definition small_view : MinimalImage :=
  MinimalImage_wrap 4 3 (Ptr 1%positive 0) default_stride.

(** Four image objects: two owners, a view of the first owner's storage and
    a view of the caller array. *)
Definition demo_objects2 : gmap addr MinimalImage :=
  {[ 10%positive := square_image;
     11%positive := small_image;
     12%positive := small_view;
     13%positive := view_image ]}.

(** What the constructors return on [demo_heap]: the next free block is 4. *)
Definition fresh_image : MinimalImage :=
  mkMinimalImage 4 3 4 (Ptr 4%positive 0) true.
Definition fresh_heap : gmap block (list (cell Z)) :=
  <[4%positive := replicate 12 Indet]> demo_heap.
Definition copied_heap : gmap block (list (cell Z)) :=
  <[4%positive := replicate 12 (Val 1)]> demo_heap.
Definition fresh_padded_image : MinimalImage :=
  mkMinimalImage 4 3 5 (Ptr 4%positive 0) true.
Definition fresh_padded_heap : gmap block (list (cell Z)) :=
  <[4%positive := replicate 15 Indet]> demo_heap.
Definition cloned_view : MinimalImage :=
  mkMinimalImage 5 4 5 (Ptr 4%positive 0) true.
Definition cloned_heap : gmap block (list (cell Z)) :=
  <[4%positive := replicate 20 (Val 2)]> demo_heap.

(** A 4x3 owning buffer whose stride 3 is below its width. *)
Definition narrow_image : MinimalImage :=
  mkMinimalImage 4 3 3 (Ptr 4%positive 0) true.

Definition narrow_heap : gmap block (list (cell Z)) :=
  {[ 4%positive := replicate 9 (Val 4) ]}.


(** The floats [1.25f], [2.0f], [1.0f], [-0.75f] and [-0.5f]. *)
Definition f1_25 : float := S754_finite false 10485760 (-23).
Definition f2_0 : float := S754_finite false 8388608 (-22).
Definition f1_0 : float := S754_finite false 8388608 (-23).
Definition fm0_75 : float := S754_finite true 12582912 (-24).
Definition fm0_5 : float := S754_finite true 8388608 (-24).

(** ** Basic facts *)

Lemma bind_Ok {A B} (a : A) (f : A -> result B) : (Ok a ≫= f) = f a.
Proof. reflexivity. Qed.

Lemma int_of_ok z : min_int <= z <= max_int -> int_of z = Ok z.
Proof. intros Hz. unfold int_of. by rewrite bool_decide_eq_true_2. Qed.

Lemma int_add_ok a b : min_int <= a + b <= max_int -> int_add a b = Ok (a + b).
Proof. apply int_of_ok. Qed.

Lemma int_sub_ok a b : min_int <= a - b <= max_int -> int_sub a b = Ok (a - b).
Proof. apply int_of_ok. Qed.

Lemma int_mul_ok a b : min_int <= a * b <= max_int -> int_mul a b = Ok (a * b).
Proof. apply int_of_ok. Qed.

Lemma int_of_inv z r : int_of z = Ok r -> r = z /\ min_int <= z <= max_int.
Proof.
  unfold int_of. case_bool_decide; [|discriminate].
  intros [= <-]. done.
Qed.

Lemma min_int_val : min_int = -2147483648.
Proof. reflexivity. Qed.

Lemma max_int_pos : 0 < max_int.
Proof. reflexivity. Qed.

Section image_facts.

Context {T : Type}.
Implicit Types (img : MinimalImage) (m : gmap block (list (cell T))).
Implicit Types (l : list (cell T)) (val : T) (c : cell T).

(** *** Lists of elements *)

Lemma paint_length c ks l : length (paint c ks l) = length l.
Proof.
  revert l. induction ks as [|k ks IH]; intros l; simpl; [done|].
  by rewrite IH, length_insert.
Qed.

Lemma paint_lookup c ks l (j : nat) :
  paint c ks l !! j =
    if bool_decide (j ∈ ks /\ (j < length l)%nat) then Some c else l !! j.
Proof.
  revert l. induction ks as [|k ks IH]; intros l.
  - case_bool_decide as H; [|done]. destruct H as [H _]. by apply elem_of_nil in H.
  - change (paint c (k :: ks) l) with (paint c ks (<[k := c]> l)).
    rewrite IH, length_insert. destruct (decide (j = k)) as [->|Hne].
    + destruct (decide (k < length l)%nat) as [Hlt|Hge].
      * rewrite list_lookup_insert_eq by done.
        rewrite (bool_decide_eq_true_2 (k ∈ k :: ks /\ _)) by (split; [left|done]).
        by case_bool_decide.
      * rewrite list_insert_ge by lia.
        rewrite !bool_decide_eq_false_2 by tauto. done.
    + rewrite list_lookup_insert_ne by done.
      apply (f_equal (fun b : bool => if b then Some c else l !! j)).
      apply bool_decide_ext. rewrite elem_of_cons. tauto.
Qed.

(** *** Loads and stores *)

Lemma load_insert m b l (lv : lval) :
  load lv (<[b := l]> m) = if decide (lv.1 = b) then l !! lv.2 else load lv m.
Proof.
  unfold load. destruct (decide (lv.1 = b)) as [->|Hne].
  - by rewrite lookup_insert_eq.
  - by rewrite lookup_insert_ne.
Qed.

Lemma load_block m b l (k : nat) : m !! b = Some l -> load (b, k) m = l !! k.
Proof. unfold load. simpl. by intros ->. Qed.

Lemma store_ok m b l (k : nat) val :
  m !! b = Some l -> (k < length l)%nat ->
  store (b, k) val m = Ok (<[b := <[k := Val val]> l]> m).
Proof.
  intros Hb Hk. unfold store. simpl. rewrite Hb.
  by rewrite bool_decide_eq_true_2.
Qed.

Lemma index_ok m b ofs l i :
  m !! b = Some l -> 0 <= ofs + i < Z.of_nat (length l) ->
  index (Ptr b ofs) i m = Ok (b, Z.to_nat (ofs + i)).
Proof.
  intros Hb Hi. unfold index. rewrite Hb. by rewrite bool_decide_eq_true_2.
Qed.

(** *** Pixel arithmetic *)

Lemma backed_lookup img m b ofs l : backed img m b ofs l -> m !! b = Some l.
Proof. by intros (_ & Hb & _). Qed.

Lemma backed_ofs img m b ofs l : backed img m b ofs l -> 0 <= ofs.
Proof. by intros (_ & _ & Ho & _). Qed.

Lemma row_bound (s hh x y : Z) :
  0 <= x < s -> 0 <= y < hh -> 0 <= y * s /\ 0 <= x + y * s < s * hh.
Proof. intros Hx Hy. nia. Qed.

Lemma pixel_index_inj img ofs (p q : Z * Z) :
  0 <= ofs -> in_image img p -> in_image img q ->
  pixel_index img ofs p = pixel_index img ofs q -> p = q.
Proof.
  destruct p as [x y], q as [x' y']. unfold in_image, pixel_index. simpl.
  intros Ho [Hx Hy] [Hx' Hy'] Heq.
  pose proof (row_bound _ _ _ _ Hx Hy) as [? ?].
  pose proof (row_bound _ _ _ _ Hx' Hy') as [? ?].
  apply Z2Nat.inj in Heq; [|lia..].
  assert (y = y') as -> by nia.
  f_equal. lia.
Qed.

Lemma pixel_index_elem img ofs (p : Z * Z) (pts : list (Z * Z)) :
  0 <= ofs -> in_image img p -> Forall (in_image img) pts ->
  pixel_index img ofs p ∈ (pixel_index img ofs <$> pts) <-> p ∈ pts.
Proof.
  intros Ho Hp Hall. rewrite list_elem_of_fmap. split.
  - intros (q & Heq & Hq).
    rewrite Forall_forall in Hall.
    by rewrite (pixel_index_inj img ofs p q Ho Hp (Hall q Hq) Heq).
  - intros Hin. by exists p.
Qed.

Lemma pixel_index_lt img m b ofs l p :
  backed img m b ofs l -> in_image img p ->
  (pixel_index img ofs p < length l)%nat.
Proof.
  intros (_ & _ & Ho & Hn & Hlen) [Hx Hy]. unfold pixel_index.
  pose proof (row_bound _ _ _ _ Hx Hy) as [? ?]. lia.
Qed.

(** *** The accessors on a valid buffer *)

Lemma at_xy_ok img m b ofs l x y :
  backed img m b ofs l -> in_image img (x, y) ->
  at_xy img x y m = Ok (b, pixel_index img ofs (x, y)).
Proof.
  intros (Hd & Hb & Ho & Hn & Hlen) [Hx Hy]. simpl in Hx, Hy.
  pose proof (row_bound _ _ _ _ Hx Hy) as [? ?].
  pose proof min_int_val.
  unfold at_xy. rewrite int_mul_ok, bind_Ok by lia.
  rewrite int_add_ok, bind_Ok by lia.
  rewrite Hd. unfold pixel_index. cbn [fst snd]. apply (index_ok _ _ _ l); [done | lia].
Qed.

Lemma at_xy_const_ok img m b ofs l x y :
  backed img m b ofs l -> in_image img (x, y) ->
  at_xy_const img x y m = Ok (b, pixel_index img ofs (x, y)).
Proof. exact (at_xy_ok img m b ofs l x y). Qed.

Lemma get_at_ok img m b ofs l x y :
  backed img m b ofs l -> in_image img (x, y) ->
  get_at img x y m = Ok (l !! pixel_index img ofs (x, y)).
Proof.
  intros Hb Hp. unfold get_at.
  rewrite (at_xy_const_ok _ _ _ _ _ _ _ Hb Hp), bind_Ok.
  f_equal. apply load_block. by eapply backed_lookup.
Qed.

Lemma set_at_ok img m b ofs l x y val :
  backed img m b ofs l -> in_image img (x, y) ->
  set_at img x y val m =
    Ok (<[b := <[pixel_index img ofs (x, y) := Val val]> l]> m).
Proof.
  intros Hb Hp. unfold set_at.
  rewrite (at_xy_ok _ _ _ _ _ _ _ Hb Hp), bind_Ok.
  apply store_ok; [by eapply backed_lookup | by eapply pixel_index_lt].
Qed.

Lemma backed_insert img m b ofs l l' :
  backed img m b ofs l -> length l' = length l ->
  backed img (<[b := l']> m) b ofs l'.
Proof.
  intros (Hd & Hb & Ho & Hn & Hlen) Hl.
  unfold backed. rewrite lookup_insert_eq, Hl. done.
Qed.

(** *** Sequences of pixel assignments *)

Lemma writes_ok img val pts m b ofs l :
  backed img m b ofs l -> Forall (in_image img) pts ->
  writes img val pts m =
    Ok (<[b := paint (Val val) (pixel_index img ofs <$> pts) l]> m).
Proof.
  revert m l. induction pts as [|[x y] pts IH]; intros m l Hb Hall.
  - simpl. f_equal. symmetry. apply insert_id. by eapply backed_lookup.
  - apply Forall_cons in Hall as [Hp Hall]. simpl.
    rewrite (set_at_ok _ _ _ _ _ _ _ _ Hb Hp), bind_Ok.
    rewrite (IH _ (<[pixel_index img ofs (x, y) := Val val]> l)).
    + by rewrite insert_insert_eq.
    + apply (backed_insert _ _ _ _ l); [done | apply length_insert].
    + done.
Qed.

Lemma writes_app img val pts1 pts2 m :
  writes img val (pts1 ++ pts2) m =
    (writes img val pts1 m ≫= writes img val pts2).
Proof.
  revert m. induction pts1 as [|p pts1 IH]; intros m; simpl; [done|].
  destruct (set_at img p.1 p.2 val m) as [m'|e]; simpl; [apply IH | done].
Qed.

(** What a valid buffer reads after a sequence of in-range assignments. *)
Lemma get_at_paint img val pts m b ofs l x y :
  backed img m b ofs l -> Forall (in_image img) pts -> in_image img (x, y) ->
  get_at img x y (<[b := paint (Val val) (pixel_index img ofs <$> pts) l]> m) =
    if bool_decide ((x, y) ∈ pts) then Ok (Some (Val val)) else get_at img x y m.
Proof.
  intros Hb Hall Hp.
  assert (0 <= ofs) as Ho by (by eapply backed_ofs).
  pose proof (pixel_index_lt _ _ _ _ _ _ Hb Hp) as Hlt.
  rewrite (get_at_ok _ _ b ofs _ x y
             (backed_insert _ _ _ _ _ _ Hb (paint_length _ _ _)) Hp).
  rewrite (get_at_ok _ _ _ _ _ _ _ Hb Hp), paint_lookup.
  case_bool_decide as H1; case_bool_decide as H2; try done.
  - exfalso. apply H2. eapply pixel_index_elem; [done..|apply H1].
  - exfalso. apply H1. split; [|done]. by apply pixel_index_elem.
Qed.

(** Elements outside the assigned pixels keep their value, in every block. *)
Lemma load_paint img val pts m b ofs l (lv : lval) :
  m !! b = Some l ->
  (forall p, p ∈ pts -> lv <> (b, pixel_index img ofs p)) ->
  load lv (<[b := paint (Val val) (pixel_index img ofs <$> pts) l]> m) =
    load lv m.
Proof.
  intros Hb Hfar. rewrite load_insert. destruct lv as [b' k]. simpl.
  destruct (decide (b' = b)) as [->|Hne]; [|done].
  rewrite (load_block _ _ _ _ Hb), paint_lookup.
  rewrite bool_decide_eq_false_2; [done|].
  intros [(p & -> & Hin)%list_elem_of_fmap _]. by eapply Hfar.
Qed.

End image_facts.

(** ** Pixel access *)

Section access.

Context {T : Type}.
Implicit Types (img : MinimalImage) (m : gmap block (list (cell T))).
Implicit Types (l : list (cell T)) (val : T).

Lemma at_i_ok img m b ofs l i :
  backed img m b ofs l -> 0 <= i < stride img * h img ->
  at_i img i m = Ok (b, Z.to_nat (ofs + i)).
Proof.
  intros (Hd & Hb & Ho & Hn & Hlen) Hi. unfold at_i. rewrite Hd.
  apply (index_ok _ _ _ l); [done | lia].
Qed.

Lemma get_i_ok img m b ofs l i :
  backed img m b ofs l -> 0 <= i < stride img * h img ->
  get_i img i m = Ok (l !! Z.to_nat (ofs + i)).
Proof.
  intros Hb Hi. unfold get_i.
  change (at_i_const img i m) with (at_i img i m).
  rewrite (at_i_ok _ _ _ _ _ _ Hb Hi), bind_Ok.
  f_equal. apply load_block. by eapply backed_lookup.
Qed.

(** C9: on a valid buffer, for every [x] in [[0, stride)] and [y] in
    [[0, h)], the two-argument accessor [at(x, y)] and the linear accessor
    [at(x + y * stride)] designate the same element, for the mutable pair of
    accessors and for the read-only pair; that element is the one at
    position [x + y * stride] of the storage. *)
Theorem at_xy_is_at_linear img m b ofs l x y :
  backed img m b ofs l -> 0 <= x < stride img -> 0 <= y < h img ->
  at_xy img x y m = at_i img (x + y * stride img) m /\
  at_xy_const img x y m = at_i_const img (x + y * stride img) m /\
  at_xy img x y m = Ok (b, Z.to_nat (ofs + (x + y * stride img))).
Proof.
  intros Hb Hx Hy.
  assert (in_image img (x, y)) as Hp by done.
  pose proof (row_bound _ _ _ _ Hx Hy) as [_ Hi].
  change (at_xy_const img x y m) with (at_xy img x y m).
  change (at_i_const img (x + y * stride img) m)
    with (at_i img (x + y * stride img) m).
  rewrite (at_xy_ok _ _ _ _ _ _ _ Hb Hp), (at_i_ok _ _ _ _ _ _ Hb Hi).
  done.
Qed.

End access.

(** ** Fills *)

Section fills.

Context {T : Type}.
Variable zero : T.
Implicit Types (img : MinimalImage) (m : gmap block (list (cell T))).
Implicit Types (l : list (cell T)) (val : T).

Lemma for_each_writes img val (f : Z -> Z * Z) js m :
  for_each js (fun x => set_at img (f x).1 (f x).2 val) m =
    writes img val (f <$> js) m.
Proof.
  revert m. induction js as [|j js IH]; intros m; [done|].
  cbn [for_each fmap list_fmap writes].
  destruct (set_at img (f j).1 (f j).2 val m) as [m'|e]; [|done].
  rewrite !bind_Ok. apply IH.
Qed.

Lemma for_each_rows img val (g : Z -> list (Z * Z)) js m :
  for_each js (fun y => writes img val (g y)) m = writes img val (js ≫= g) m.
Proof.
  revert m. induction js as [|j js IH]; intros m; [done|].
  cbn [for_each]. change ((j :: js) ≫= g) with (g j ++ (js ≫= g)).
  rewrite writes_app.
  destruct (writes img val (g j) m) as [m'|e]; [|done].
  rewrite !bind_Ok. apply IH.
Qed.

Lemma for_each_ext (f g : Z -> gmap block (list (cell T)) -> result _) js m :
  (forall j m', j ∈ js -> f j m' = g j m') -> for_each js f m = for_each js g m.
Proof.
  revert m. induction js as [|j js IH]; intros m Hfg; [done|].
  cbn [for_each]. rewrite Hfg by left. destruct (g j m) as [m'|e]; [|done].
  rewrite !bind_Ok. apply IH. intros j' m'' Hin. apply Hfg. by right.
Qed.

(** [setConst] is the sequence of assignments to [const_pixels]. *)
Lemma setConst_writes img val m :
  setConst img val m = writes img val (const_pixels img) m.
Proof.
  unfold setConst, for_range, const_pixels.
  rewrite <- for_each_rows. apply for_each_ext. intros y m' _.
  apply (for_each_writes img val (fun x => (x, y))).
Qed.

Lemma elem_of_const_pixels img x y :
  (x, y) ∈ const_pixels img <-> 0 <= x < w img /\ 0 <= y < h img.
Proof.
  unfold const_pixels. rewrite list_elem_of_bind. split.
  - intros (y' & Hin & Hy'). apply list_elem_of_fmap in Hin as (x' & [= -> ->] & Hx').
    apply elem_of_seqZ in Hy', Hx'. lia.
  - intros [Hx Hy]. exists y. split.
    + apply list_elem_of_fmap. exists x. split; [done|]. apply elem_of_seqZ. lia.
    + apply elem_of_seqZ. lia.
Qed.

Lemma const_pixels_in_image img :
  w img <= stride img -> Forall (in_image img) (const_pixels img).
Proof.
  intros Hw. apply Forall_forall. intros [x y] Hin.
  apply elem_of_const_pixels in Hin. unfold in_image. simpl. lia.
Qed.

(** C4: on a valid buffer with [stride >= w], [setConst(val)] completes;
    afterwards [at(x, y)] reads [val] for every [x] in [[0, w)] and [y] in
    [[0, h)], and every element of the padding columns ([x] in
    [[w, stride)], any row [y] in [[0, h)]) reads what it read before. *)
Theorem setConst_fills_image_only img val m b ofs l :
  backed img m b ofs l -> w img <= stride img ->
  exists m',
    setConst img val m = Ok m' /\
    (forall x y, 0 <= x < w img -> 0 <= y < h img ->
       get_at img x y m' = Ok (Some (Val val))) /\
    (forall x y, w img <= x < stride img -> 0 <= y < h img ->
       get_at img x y m' = get_at img x y m).
Proof.
  intros Hb Hw.
  pose proof (const_pixels_in_image img Hw) as Hall.
  eexists. split; [|split].
  - rewrite setConst_writes. by apply (writes_ok _ _ _ _ b ofs l).
  - intros x y Hx Hy.
    rewrite (get_at_paint _ _ _ _ _ _ _ x y Hb Hall) by (unfold in_image; simpl; lia).
    rewrite bool_decide_eq_true_2; [done|]. by apply elem_of_const_pixels.
  - intros x y Hx Hy. destruct (decide (0 <= x)) as [Hx0|Hx0].
    + rewrite (get_at_paint _ _ _ _ _ _ _ x y Hb Hall) by (unfold in_image; simpl; lia).
      rewrite bool_decide_eq_false_2; [done|].
      rewrite elem_of_const_pixels. lia.
    + assert (const_pixels img = []) as ->.
      { unfold const_pixels. replace (w img - 0) with (w img) by lia.
        rewrite (seqZ_nil 0 (w img)) by lia.
        induction (seqZ 0 (h img - 0)); [done|]. done. }
      simpl. rewrite insert_id; [done | by eapply backed_lookup].
Qed.

Lemma memset_zero_ok img m b ofs l :
  backed img m b ofs l ->
  setBlack zero img m =
    Ok (<[b := list_inserts (Z.to_nat ofs)
                 (replicate (Z.to_nat (stride img * h img)) (Val zero)) l]> m).
Proof.
  intros (Hd & Hb & Ho & Hn & Hlen). unfold setBlack, memset_zero.
  rewrite Hd, Hb. rewrite bool_decide_eq_true_2; [done | lia].
Qed.

(** C5: on a valid buffer [setBlack()] completes; afterwards each of the
    [stride * h] elements of the backing store, padding columns included,
    reads the zero value of [T], and so does [at(x, y)] for every [x] in
    [[0, w)] and [y] in [[0, h)] when the buffer has [stride >= w]. *)
Theorem setBlack_zeroes_store img m b ofs l :
  backed img m b ofs l ->
  exists m',
    setBlack zero img m = Ok m' /\
    (forall i, 0 <= i < stride img * h img ->
       get_i img i m' = Ok (Some (Val zero))) /\
    (w img <= stride img ->
     forall x y, 0 <= x < w img -> 0 <= y < h img ->
       get_at img x y m' = Ok (Some (Val zero))).
Proof.
  intros Hb. eexists. split; [by apply memset_zero_ok|].
  set (l' := list_inserts _ _ l).
  assert (backed img (<[b := l']> m) b ofs l') as Hb'.
  { apply (backed_insert _ _ _ _ l); [done | apply length_inserts]. }
  assert (forall i, 0 <= i < stride img * h img ->
            l' !! Z.to_nat (ofs + i) = Some (Val zero)) as Hz.
  { intros i Hi. destruct Hb as (Hd & Hl & Ho & Hn & Hlen). unfold l'.
    rewrite list_lookup_inserts by (rewrite ?length_replicate; lia).
    apply lookup_replicate_2. lia. }
  split.
  - intros i Hi. rewrite (get_i_ok _ _ _ _ _ _ Hb' Hi). f_equal. by apply Hz.
  - intros Hw x y Hx Hy.
    assert (0 <= x < stride img) as Hx' by lia.
    rewrite (get_at_ok _ _ _ _ _ x y Hb') by done.
    pose proof (row_bound _ _ _ _ Hx' Hy) as [_ Hi].
    f_equal. apply (Hz _ Hi).
Qed.

End fills.

(** ** Construction, move and self-assignment *)

Section lifecycle.

Context {T : Type}.
Implicit Types (img : MinimalImage) (m : gmap block (list (cell T))).
Implicit Types (os : gmap addr MinimalImage).

Lemma fresh_block_unused m : m !! fresh (dom m) = None.
Proof. apply not_elem_of_dom. apply is_fresh. Qed.

Lemma new_array_ok n m :
  0 <= n ->
  new_array n m =
    Ok (Ptr (fresh (dom m)) 0,
        <[fresh (dom m) := replicate (Z.to_nat n) Indet]> m).
Proof.
  intros Hn. unfold new_array. rewrite bool_decide_eq_false_2; [done | lia].
Qed.

Lemma MinimalImage_new_ok (w_ h_ s : Z) stride_ m :
  (if bool_decide (stride_ > 0) then stride_ else w_) = s ->
  0 <= s * h_ <= max_int ->
  MinimalImage_new w_ h_ stride_ m =
    Ok (mkMinimalImage w_ h_ s (Ptr (fresh (dom m)) 0) true,
        <[fresh (dom m) := replicate (Z.to_nat (s * h_)) Indet]> m).
Proof.
  intros Hs Hn. unfold MinimalImage_new. rewrite Hs.
  pose proof min_int_val.
  rewrite int_mul_ok, bind_Ok by lia.
  rewrite new_array_ok by lia. done.
Qed.

(** C6: for [w > 0] and [h > 0], the owning constructor and the wrapping
    constructor both set [stride] to [w] when the stride argument is not
    positive (the default [-1] included) and to the argument when it is
    positive; the owning constructor, whenever [stride * h] is representable
    in [int], returns an owning buffer whose storage is a block that was not
    live before and holds exactly [stride * h] elements. *)
Theorem constructors_resolve_stride (w_ h_ stride_ : Z) (data_ : ptr) m :
  0 < w_ -> 0 < h_ ->
  (stride_ <= 0 -> w_ * h_ <= max_int) ->
  (0 < stride_ -> stride_ * h_ <= max_int) ->
  (stride_ <= 0 -> stride (MinimalImage_wrap w_ h_ data_ stride_) = w_) /\
  (0 < stride_ -> stride (MinimalImage_wrap w_ h_ data_ stride_) = stride_) /\
  stride (MinimalImage_wrap w_ h_ data_ default_stride) = w_ /\
  exists img m' b l,
    MinimalImage_new w_ h_ stride_ m = Ok (img, m') /\
    (stride_ <= 0 -> stride img = w_) /\
    (0 < stride_ -> stride img = stride_) /\
    (stride_ = default_stride -> stride img = w_) /\
    w img = w_ /\ h img = h_ /\ ownData img = true /\
    data img = Ptr b 0 /\ m !! b = None /\ m' !! b = Some l /\
    Z.of_nat (length l) = stride img * h img.
Proof.
  intros Hw Hh Hdef Hpos. unfold MinimalImage_wrap, default_stride. simpl.
  split; [|split; [|split]].
  - intros Hs. rewrite bool_decide_eq_false_2; [done | lia].
  - intros Hs. rewrite bool_decide_eq_true_2; [done | lia].
  - done.
  - set (s := if bool_decide (stride_ > 0) then stride_ else w_).
    assert ((stride_ <= 0 -> s = w_) /\ (0 < stride_ -> s = stride_)) as [Hs1 Hs2].
    { unfold s. case_bool_decide; split; intros; try done; lia. }
    assert (0 <= s * h_ <= max_int) as Hn.
    { destruct (decide (0 < stride_)) as [Hs|Hs].
      - rewrite Hs2 by done. split; [|auto]. apply Z.mul_nonneg_nonneg; lia.
      - rewrite Hs1 by lia. split; [|apply Hdef; lia].
        apply Z.mul_nonneg_nonneg; lia. }
    exists (mkMinimalImage w_ h_ s (Ptr (fresh (dom m)) 0) true),
      (<[fresh (dom m) := replicate (Z.to_nat (s * h_)) Indet]> m),
      (fresh (dom m)), (replicate (Z.to_nat (s * h_)) Indet).
    split; [by apply MinimalImage_new_ok|]. simpl.
    rewrite lookup_insert_eq, length_replicate, Z2Nat.id by lia.
    repeat split; try done; try lia.
    apply fresh_block_unused.
Qed.

Lemma release_ok img m :
  releasable img m -> exists m1, release img m = Ok m1.
Proof.
  intros Hrel. unfold release.
  destruct (ownData img) eqn:Hown; simpl; [|by eexists].
  case_bool_decide as Hnull; [|by eexists].
  destruct (Hrel Hown Hnull) as (b & l & Hd & Hb).
  rewrite Hd. simpl. rewrite Hb. by eexists.
Qed.

Lemma MinimalImage_eta img :
  mkMinimalImage (w img) (h img) (stride img) (data img) (ownData img) = img.
Proof. by destruct img. Qed.

(** C2: move construction from a buffer [b] yields a destination with
    [b]'s [w], [h], [stride], storage pointer and ownership flag, and leaves
    [b] with a null storage pointer and a cleared ownership flag; move
    assignment of [b] to another object whose own storage can be released
    does the same to the two objects. *)
Theorem move_transfers_storage (b self : MinimalImage) (this other : addr) os m :
  this <> other -> os !! other = Some b -> os !! this = Some self ->
  releasable self m ->
  (MinimalImage_move b).1 = b /\
  data (MinimalImage_move b).2 = nullptr /\
  ownData (MinimalImage_move b).2 = false /\
  exists os' m' b',
    move_assign this other os m = Ok (os', m') /\
    release self m = Ok m' /\
    os' !! this = Some b /\
    os' !! other = Some b' /\ data b' = nullptr /\ ownData b' = false.
Proof.
  intros Hne Ho Ht Hrel. simpl. split; [apply MinimalImage_eta|].
  split; [done|]. split; [done|].
  destruct (release_ok _ _ Hrel) as [m1 Hm1].
  unfold move_assign, deref. rewrite bool_decide_eq_true_2 by done.
  rewrite Ht, bind_Ok, Hm1, bind_Ok, Ho, bind_Ok.
  do 3 eexists. split; [done|]. split; [done|].
  rewrite lookup_insert_eq, lookup_insert_ne, lookup_insert_eq by done.
  rewrite MinimalImage_eta. done.
Qed.

(** C8: copy-assigning an object to itself changes nothing: the object
    store (hence [w], [h], [stride], the storage pointer and the ownership
    flag of the object) and the heap (hence every element, and the liveness
    of owned storage) are returned as they were. *)
Theorem self_assign_is_noop (this : addr) os m :
  assign this this os m = Ok (os, m).
Proof.
  unfold assign. rewrite bool_decide_eq_false_2; [done|].
  intros Hne. by apply Hne.
Qed.

End lifecycle.

(** ** Marker stamping *)

Section markers.

Context {T : Type}.
Implicit Types (img : MinimalImage) (m : gmap block (list (cell T))).
Implicit Types (l : list (cell T)) (val : T) (u v : float).

(** *** Float to pixel conversion *)

(** Truncation toward zero and floor agree on floats that are not below
    zero. *)
Lemma float_to_int_floor (f : float) (z : Z) :
  float_floor f = Some z -> 0 <= z <= max_int -> float_to_int f = Ok z.
Proof.
  pose proof min_int_val as Hmin.
  destruct f as [s| | |s mm e]; simpl; try discriminate.
  - intros [= <-] _. done.
  - destruct s.
    + intros [= <-] Hz. exfalso. revert Hz. case_bool_decide as He; intros Hz.
      * assert (0 < 2 ^ e) by (by apply Z.pow_pos_nonneg). nia.
      * assert (0 < 2 ^ (- e)) by (apply Z.pow_pos_nonneg; lia).
        assert (Z.neg mm / 2 ^ (- e) < 0); [|lia].
        apply Z.div_lt_upper_bound; lia.
    + intros [= <-] Hz. unfold trunc_mag. apply int_of_ok. lia.
Qed.

Lemma float_to_int_inv (f : float) (z : Z) :
  float_to_int f = Ok z -> min_int <= z <= max_int.
Proof.
  destruct f as [s| | |s mm e]; simpl; try discriminate.
  - intros [= <-]. done.
  - intros [-> ?]%int_of_inv. done.
Qed.

Lemma backed_dims img m b ofs l p :
  backed img m b ofs l -> in_image img p ->
  stride img <= max_int /\ h img <= max_int.
Proof.
  intros (_ & _ & _ & Hn & _) [Hx Hy]. split; nia.
Qed.

Lemma setPixel1_ok img m b ofs l u v val x y :
  backed img m b ofs l ->
  float_to_int (float_add u half) = Ok x ->
  float_to_int (float_add v half) = Ok y ->
  in_image img (x, y) ->
  setPixel1 img u v val m =
    Ok (<[b := <[pixel_index img ofs (x, y) := Val val]> l]> m).
Proof.
  intros Hb Hu Hv Hp. unfold setPixel1.
  rewrite Hu, bind_Ok, Hv, bind_Ok. by apply set_at_ok.
Qed.


(** *** The 2x2 block *)

Lemma setPixel4_writes img u v val m iu iv :
  float_to_int u = Ok iu -> float_to_int v = Ok iv ->
  iu + 1 <= max_int -> iv + 1 <= max_int ->
  setPixel4 img u v val m = writes img val (block4 iu iv) m.
Proof.
  intros Hu Hv Hiu Hiv. unfold setPixel4.
  apply float_to_int_inv in Hu as Hu', Hv as Hv'.
  rewrite Hu, bind_Ok, Hv, bind_Ok.
  rewrite !int_add_ok by lia. rewrite !bind_Ok.
  unfold block4. cbn [writes fst snd].
  destruct (set_at img (iu + 1) (iv + 1) val m) as [m1|e]; [|done].
  rewrite !bind_Ok.
  destruct (set_at img (iu + 1) iv val m1) as [m2|e]; [|done].
  rewrite !bind_Ok.
  destruct (set_at img iu (iv + 1) val m2) as [m3|e]; [|done].
  rewrite !bind_Ok.
  by destruct (set_at img iu iv val m3).
Qed.

(** C7: on a valid buffer, for float coordinates [(u, v)] such that the
    four pixels [(iu, iv)], [(iu + 1, iv)], [(iu, iv + 1)],
    [(iu + 1, iv + 1)] with [iu = floor(u)], [iv = floor(v)] lie in
    [[0, stride) x [0, h)], [setPixel4(u, v, val)] completes, each of the
    four pixels then reads [val], and every other element of the heap, hence
    of the backing store, is unchanged. *)
Theorem setPixel4_writes_block img m b ofs l u v val iu iv :
  backed img m b ofs l ->
  float_floor u = Some iu -> float_floor v = Some iv ->
  0 <= iu -> iu + 1 < stride img -> 0 <= iv -> iv + 1 < h img ->
  exists m',
    setPixel4 img u v val m = Ok m' /\
    get_at img iu iv m' = Ok (Some (Val val)) /\
    get_at img (iu + 1) iv m' = Ok (Some (Val val)) /\
    get_at img iu (iv + 1) m' = Ok (Some (Val val)) /\
    get_at img (iu + 1) (iv + 1) m' = Ok (Some (Val val)) /\
    (forall lv : lval,
       lv <> (b, pixel_index img ofs (iu, iv)) ->
       lv <> (b, pixel_index img ofs (iu + 1, iv)) ->
       lv <> (b, pixel_index img ofs (iu, iv + 1)) ->
       lv <> (b, pixel_index img ofs (iu + 1, iv + 1)) ->
       load lv m' = load lv m).
Proof.
  intros Hb Hu Hv Hu0 Hu1 Hv0 Hv1.
  assert (in_image img (iu, iv)) as Hp by (unfold in_image; simpl; lia).
  destruct (backed_dims _ _ _ _ _ _ Hb Hp) as [Hs Hh].
  assert (Forall (in_image img) (block4 iu iv)) as Hall.
  { unfold block4, in_image. repeat apply Forall_cons_2; simpl; try lia.
    apply Forall_nil_2. }
  assert (forall x y, in_image img (x, y) -> (x, y) ∈ block4 iu iv ->
            get_at img x y
              (<[b := paint (Val val) (pixel_index img ofs <$> block4 iu iv) l]> m)
            = Ok (Some (Val val))) as Hget.
  { intros x y Hxy Hin. rewrite (get_at_paint _ _ _ _ _ _ _ x y Hb Hall Hxy).
    by rewrite bool_decide_eq_true_2. }
  exists (<[b := paint (Val val) (pixel_index img ofs <$> block4 iu iv) l]> m).
  split.
  { rewrite (setPixel4_writes _ _ _ _ _ iu iv);
      [by apply writes_ok | | | lia | lia];
      apply float_to_int_floor; (done || lia). }
  unfold block4 in Hget.
  repeat split.
  - apply Hget; [unfold in_image; simpl; lia | set_solver].
  - apply Hget; [unfold in_image; simpl; lia | set_solver].
  - apply Hget; [unfold in_image; simpl; lia | set_solver].
  - apply Hget; [unfold in_image; simpl; lia | set_solver].
  - intros lv H1 H2 H3 H4.
    apply (load_paint img val (block4 iu iv) m b ofs l);
      [by eapply backed_lookup|].
    intros p Hin. unfold block4 in Hin.
    repeat (apply elem_of_cons in Hin as [->|Hin]; [done|]).
    by apply elem_of_nil in Hin.
Qed.

(** *** The 3x3 block *)

(** [setPixel9] is the sequence of assignments to the centre shifted by
    [block9_offsets]. *)
Lemma setPixel9_writes img (u v : Z) val m :
  min_int <= u - 1 -> u + 1 <= max_int ->
  min_int <= v - 1 -> v + 1 <= max_int ->
  setPixel9 img u v val m =
    writes img val (shift u v <$> block9_offsets) m.
Proof.
  intros Hu1 Hu2 Hv1 Hv2. unfold setPixel9, for_range.
  change (seqZ (-1) (1 + 1 - -1)) with (seqZ (-1) 3).
  change (shift u v <$> block9_offsets)
    with (seqZ (-1) 3 ≫= fun dy =>
            (fun dx => (u + dx, v + dy)) <$> seqZ (-1) 3).
  rewrite <- for_each_rows.
  apply for_each_ext. intros dy m' Hdy. apply elem_of_seqZ in Hdy.
  rewrite <- (for_each_writes img val (fun dx => (u + dx, v + dy))).
  apply for_each_ext. intros dx m'' Hdx. apply elem_of_seqZ in Hdx.
  rewrite !int_add_ok by lia. by rewrite !bind_Ok.
Qed.

Lemma elem_of_shift_block9 (u v x y : Z) :
  (x, y) ∈ (shift u v <$> block9_offsets) <->
  -1 <= x - u <= 1 /\ -1 <= y - v <= 1.
Proof.
  unfold block9_offsets. rewrite list_elem_of_fmap. split.
  - intros ([dx dy] & [= -> ->] & Hin).
    apply list_elem_of_bind in Hin as (dy' & Hin & Hdy).
    apply list_elem_of_fmap in Hin as (dx' & [= -> ->] & Hdx).
    apply elem_of_seqZ in Hdx, Hdy. simpl. lia.
  - intros [Hx Hy]. exists (x - u, y - v). split.
    + unfold shift. simpl. f_equal; lia.
    + apply list_elem_of_bind. exists (y - v). split.
      * apply list_elem_of_fmap. exists (x - u). split; [done|].
        apply elem_of_seqZ. lia.
      * apply elem_of_seqZ. lia.
Qed.

(** X17: on a valid buffer, when the 3x3 block centred at the integer
    coordinates [(u, v)] lies in [[0, stride) x [0, h)], [setPixel9(u, v, val)]
    completes; afterwards the nine pixels of the block read [val] and every
    other pixel of the buffer reads what it read before. *)
Theorem setPixel9_writes_block img m b ofs l (u v : Z) val :
  backed img m b ofs l ->
  0 <= u - 1 -> u + 1 < stride img -> 0 <= v - 1 -> v + 1 < h img ->
  exists m',
    setPixel9 img u v val m = Ok m' /\
    forall x y, 0 <= x < stride img -> 0 <= y < h img ->
      get_at img x y m' =
        if bool_decide (-1 <= x - u <= 1 /\ -1 <= y - v <= 1)
        then Ok (Some (Val val)) else get_at img x y m.
Proof.
  intros Hb Hu1 Hu2 Hv1 Hv2.
  assert (in_image img (u, v)) as Hp by (unfold in_image; simpl; lia).
  destruct (backed_dims _ _ _ _ _ _ Hb Hp) as [Hs Hh].
  pose proof min_int_val as Hmin.
  assert (Forall (in_image img) (shift u v <$> block9_offsets)) as Hall.
  { apply Forall_forall. intros [x y] Hin.
    apply elem_of_shift_block9 in Hin. unfold in_image. simpl. lia. }
  eexists. split.
  - rewrite setPixel9_writes by lia. by apply (writes_ok _ _ _ _ b ofs l).
  - intros x y Hx Hy. rewrite (get_at_paint _ _ _ _ _ _ _ x y Hb Hall) by done.
    apply (f_equal (fun c : bool =>
                      if c then Ok (Some (Val val)) else get_at img x y m)).
    apply bool_decide_ext, elem_of_shift_block9.
Qed.

(** *** The ring *)

Lemma circ_offsets_on_ring :
  Forall (fun d => on_ring d.1 d.2) circ_offsets.
Proof. apply (bool_decide_unpack _). by vm_compute. Qed.

Lemma on_ring_in_circ_offsets :
  Forall (fun d => on_ring d.1 d.2 -> d ∈ circ_offsets) grid7.
Proof. apply (bool_decide_unpack _). by vm_compute. Qed.

Lemma elem_of_grid7 dx dy :
  -3 <= dx <= 3 -> -3 <= dy <= 3 -> (dx, dy) ∈ grid7.
Proof.
  intros Hx Hy. unfold grid7. apply list_elem_of_bind. exists dx. split.
  - apply list_elem_of_fmap. exists dy. split; [done|]. apply elem_of_seqZ. lia.
  - apply elem_of_seqZ. lia.
Qed.

Lemma elem_of_circ_offsets dx dy :
  (dx, dy) ∈ circ_offsets <-> on_ring dx dy.
Proof.
  split.
  - intros Hin. pose proof circ_offsets_on_ring as Hall.
    rewrite Forall_forall in Hall. apply (Hall (dx, dy) Hin).
  - intros Hring. pose proof on_ring_in_circ_offsets as Hall.
    rewrite Forall_forall in Hall. apply (Hall (dx, dy)); [|done].
    destruct Hring as (_ & Hx & Hy). apply elem_of_grid7; lia.
Qed.

Lemma elem_of_shift_circ (u v x y : Z) :
  (x, y) ∈ (shift u v <$> circ_offsets) <-> on_ring (x - u) (y - v).
Proof.
  rewrite <- elem_of_circ_offsets, list_elem_of_fmap. split.
  - intros ([dx dy] & [= -> ->] & Hin). simpl.
    by replace (u + dx - u) with dx by lia; replace (v + dy - v) with dy by lia.
  - intros Hin. exists (x - u, y - v). split; [|done].
    unfold shift. simpl. f_equal; lia.
Qed.

(** One iteration of the loop of [setPixelCirc], as a function of the loop
    variable. *)
Lemma setPixelCirc_body img (u v i : Z) val m0 :
  min_int <= u - 3 -> u + 3 <= max_int ->
  min_int <= v - 3 -> v + 3 <= max_int -> -3 <= i <= 3 ->
  (x ← int_add u 3; y ← int_add v i; m1 ← set_at img x y val m0;
   x ← int_sub u 3; y ← int_add v i; m2 ← set_at img x y val m1;
   x ← int_add u 2; y ← int_add v i; m3 ← set_at img x y val m2;
   x ← int_sub u 2; y ← int_add v i; m4 ← set_at img x y val m3;
   x ← int_add u i; y ← int_sub v 3; m5 ← set_at img x y val m4;
   x ← int_add u i; y ← int_add v 3; m6 ← set_at img x y val m5;
   x ← int_add u i; y ← int_sub v 2; m7 ← set_at img x y val m6;
   x ← int_add u i; y ← int_add v 2; set_at img x y val m7) =
  writes img val (shift u v <$> circ_row i) m0.
Proof.
  intros Hu1 Hu2 Hv1 Hv2 Hi.
  rewrite !int_add_ok, !int_sub_ok by lia.
  change (u - 3) with (u + -3). change (u - 2) with (u + -2).
  change (v - 3) with (v + -3). change (v - 2) with (v + -2).
  unfold circ_row, shift, mbind, result_bind.
  cbn [writes fmap list_fmap fst snd].
  unfold mbind, result_bind.
  repeat match goal with
         | |- context [set_at ?i0 ?x ?y ?w0 ?m1] =>
             destruct (set_at i0 x y w0 m1); [|reflexivity]
         end.
  reflexivity.
Qed.

(** [setPixelCirc] is the sequence of assignments to the centre shifted by
    [circ_offsets]. *)
Lemma setPixelCirc_writes img (u v : Z) val m :
  min_int <= u - 3 -> u + 3 <= max_int ->
  min_int <= v - 3 -> v + 3 <= max_int ->
  setPixelCirc img u v val m =
    writes img val (shift u v <$> circ_offsets) m.
Proof.
  intros Hu1 Hu2 Hv1 Hv2. unfold setPixelCirc, for_range.
  change (seqZ (-3) (3 + 1 - -3)) with [-3; -2; -1; 0; 1; 2; 3].
  change (shift u v <$> circ_offsets)
    with ([-3; -2; -1; 0; 1; 2; 3] ≫= fun i => shift u v <$> circ_row i).
  rewrite <- for_each_rows.
  apply for_each_ext. intros i m' Hi.
  apply setPixelCirc_body; try done.
  change [-3; -2; -1; 0; 1; 2; 3] with (seqZ (-3) 7) in Hi.
  apply elem_of_seqZ in Hi. lia.
Qed.

(** C10: on a valid buffer, for integer coordinates [(u, v)] such that every
    addressed point lies in [[0, stride) x [0, h)], [setPixelCirc(u, v, val)]
    is a sequence of assignments to pixels [(u + dx, v + dy)] each of which
    has [|dx|] in {2, 3} or [|dy|] in {2, 3}; it completes, and every pixel
    with [|dx| <= 1] and [|dy| <= 1], the centre among them, reads
    afterwards what it read before. *)
Theorem setPixelCirc_spares_centre img m b ofs l (u v : Z) val :
  backed img m b ofs l ->
  0 <= u - 3 -> u + 3 < stride img -> 0 <= v - 3 -> v + 3 < h img ->
  setPixelCirc img u v val m = writes img val (shift u v <$> circ_offsets) m /\
  Forall (fun d => Z.abs d.1 = 2 \/ Z.abs d.1 = 3 \/
                   Z.abs d.2 = 2 \/ Z.abs d.2 = 3) circ_offsets /\
  exists m',
    setPixelCirc img u v val m = Ok m' /\
    (forall dx dy, -1 <= dx <= 1 -> -1 <= dy <= 1 ->
       get_at img (u + dx) (v + dy) m' = get_at img (u + dx) (v + dy) m) /\
    get_at img u v m' = get_at img u v m /\
    (forall x y, 0 <= x < stride img -> 0 <= y < h img ->
       get_at img x y m' =
         if decide (on_ring (x - u) (y - v)) then Ok (Some (Val val))
         else get_at img x y m).
Proof.
  intros Hb Hu1 Hu2 Hv1 Hv2.
  assert (in_image img (u, v)) as Hp by (unfold in_image; simpl; lia).
  destruct (backed_dims _ _ _ _ _ _ Hb Hp) as [Hs Hh].
  pose proof min_int_val as Hmin.
  assert (setPixelCirc img u v val m =
            writes img val (shift u v <$> circ_offsets) m) as Heq
    by (apply setPixelCirc_writes; lia).
  assert (Forall (in_image img) (shift u v <$> circ_offsets)) as Hall.
  { apply Forall_fmap, Forall_forall. intros [dx dy] Hin.
    apply elem_of_circ_offsets in Hin as (_ & Hx & Hy).
    unfold in_image, shift. simpl in *. lia. }
  assert (forall x y, 0 <= x < stride img -> 0 <= y < h img ->
            get_at img x y
              (<[b := paint (Val val)
                       (pixel_index img ofs <$> (shift u v <$> circ_offsets)) l]> m)
            = if decide (on_ring (x - u) (y - v)) then Ok (Some (Val val))
              else get_at img x y m) as Hget.
  { intros x y Hx Hy. rewrite (get_at_paint _ _ _ _ _ _ _ x y Hb Hall) by done.
    destruct (decide (on_ring (x - u) (y - v))) as [Hr|Hr].
    - rewrite bool_decide_eq_true_2; [done|]. by apply elem_of_shift_circ.
    - rewrite bool_decide_eq_false_2; [done|]. by rewrite elem_of_shift_circ. }
  assert (forall dx dy, -1 <= dx <= 1 -> -1 <= dy <= 1 ->
            get_at img (u + dx) (v + dy)
              (<[b := paint (Val val)
                       (pixel_index img ofs <$> (shift u v <$> circ_offsets)) l]> m)
            = get_at img (u + dx) (v + dy) m) as Hcentre.
  { intros dx dy Hdx Hdy. rewrite Hget by lia.
    destruct (decide _) as [Hr|Hr]; [|done].
    exfalso. destruct Hr as (Hr & _). lia. }
  split; [done|]. split.
  { eapply Forall_impl; [apply circ_offsets_on_ring|].
    intros d Hd. apply Hd. }
  eexists. split; [rewrite Heq; by apply (writes_ok _ _ _ _ b ofs l)|].
  split; [done|]. split; [|done].
  specialize (Hcentre 0 0). rewrite !Z.add_0_r in Hcentre. apply Hcentre; lia.
Qed.

End markers.

(** ** Copying *)

Section copying.

Context {T : Type}.
Implicit Types (img src dst : MinimalImage) (m : gmap block (list (cell T))).
Implicit Types (l : list (cell T)) (val : T) (os : gmap addr MinimalImage).

Lemma poke_ok img m b ofs l i val :
  backed img m b ofs l -> 0 <= i < stride img * h img ->
  poke img i val m = Ok (<[b := <[Z.to_nat (ofs + i) := Val val]> l]> m).
Proof.
  intros Hb Hi. unfold poke. rewrite (at_i_ok _ _ _ _ _ _ Hb Hi), bind_Ok.
  apply store_ok; [by eapply backed_lookup|].
  destruct Hb as (_ & _ & Ho & Hn & Hlen). lia.
Qed.

Lemma backed_insert_ne img m b ofs l b' l' :
  backed img m b ofs l -> b' <> b -> backed img (<[b' := l']> m) b ofs l.
Proof.
  intros (Hd & Hb & Ho & Hn & Hlen) Hne. unfold backed.
  by rewrite lookup_insert_ne.
Qed.

Lemma backed_same_geometry img img' m b ofs l :
  backed img m b ofs l ->
  stride img' = stride img -> h img' = h img -> data img' = data img ->
  backed img' m b ofs l.
Proof.
  intros (Hd & Hb & Ho & Hn & Hlen) Hs Hh Hdata. unfold backed.
  by rewrite Hs, Hh, Hdata.
Qed.

(** Two valid buffers over different blocks do not affect each other. *)
Lemma independent_blocks a c m ba oa la bc oc lc :
  backed a m ba oa la -> backed c m bc oc lc -> ba <> bc ->
  independent a c m.
Proof.
  intros Ha Hc Hne i val Hi. eexists. split; [by eapply poke_ok|].
  intros j Hj.
  rewrite (get_i_ok c _ bc oc lc j); [|by apply backed_insert_ne|done].
  by rewrite (get_i_ok c _ bc oc lc j).
Qed.

(** Two valid buffers over the same storage see each other's writes. *)
Lemma shares_storage a c m b ofs l :
  backed a m b ofs l -> backed c m b ofs l ->
  stride c * h c = stride a * h a ->
  shares a c m.
Proof.
  intros Ha Hc Hn i val Hi. eexists. split; [by eapply poke_ok|].
  assert (Z.to_nat (ofs + i) < length l)%nat as Hlt.
  { destruct Ha as (_ & _ & Ho & Hna & Hlen). lia. }
  rewrite (get_i_ok c _ b ofs (<[Z.to_nat (ofs + i) := Val val]> l) i).
  - by rewrite list_lookup_insert_eq.
  - apply (backed_insert _ _ _ _ l); [done | apply length_insert].
  - lia.
Qed.

(** The storage duplication shared by the copy constructor and copy
    assignment: [new T[stride * h]] followed by [std::memcpy]. *)
Lemma duplicate_ok src m b ofs l :
  backed src m b ofs l ->
  let n := stride src * h src in
  let bc := fresh (dom m) in
  let lc := list_inserts 0 (take (Z.to_nat n) (drop (Z.to_nat ofs) l))
              (replicate (Z.to_nat n) Indet) in
  int_mul (stride src) (h src) = Ok n /\
  new_array n m = Ok (Ptr bc 0, <[bc := replicate (Z.to_nat n) Indet]> m) /\
  memcpy (Ptr bc 0) (data src) n (<[bc := replicate (Z.to_nat n) Indet]> m) =
    Ok (<[bc := lc]> m) /\
  bc <> b /\
  Z.of_nat (length lc) = n /\
  forall i, 0 <= i < n -> lc !! Z.to_nat (0 + i) = l !! Z.to_nat (ofs + i).
Proof.
  intros (Hd & Hb & Ho & Hn & Hlen) n bc lc.
  pose proof min_int_val as Hmin.
  assert (bc <> b) as Hne.
  { intros Heq. pose proof (fresh_block_unused m) as Hf.
    unfold bc in Heq. rewrite Heq in Hf. congruence. }
  assert (Z.of_nat (length lc) = n) as Hlc.
  { unfold lc. rewrite length_inserts, length_replicate. lia. }
  split; [apply int_mul_ok; lia|].
  split; [apply new_array_ok; lia|].
  split; [|split; [done|split; [done|]]].
  - unfold memcpy. rewrite Hd, lookup_insert_eq, lookup_insert_ne, Hb by done.
    rewrite bool_decide_eq_true_2.
    + by rewrite insert_insert_eq.
    + rewrite length_replicate. repeat split; try lia.
  - intros i Hi. unfold lc.
    rewrite list_lookup_inserts
      by (rewrite ?length_take, ?length_drop, ?length_replicate; lia).
    rewrite lookup_take_lt, lookup_drop by lia. f_equal. lia.
Qed.

(** What holds of the duplicate once it is in place. *)
Lemma duplicate_deep_copy src m b ofs l :
  backed src m b ofs l ->
  let n := stride src * h src in
  let bc := fresh (dom m) in
  let lc := list_inserts 0 (take (Z.to_nat n) (drop (Z.to_nat ofs) l))
              (replicate (Z.to_nat n) Indet) in
  deep_copy_of src (mkMinimalImage (w src) (h src) (stride src) (Ptr bc 0) true)
    (<[bc := lc]> m).
Proof.
  intros Hb n bc lc.
  destruct (duplicate_ok src m b ofs l Hb) as (_ & _ & _ & Hne & Hlc & Hsame).
  fold n bc lc in Hne, Hlc, Hsame.
  set (c := mkMinimalImage (w src) (h src) (stride src) (Ptr bc 0) true).
  assert (backed src (<[bc := lc]> m) b ofs l) as Hsrc
    by (by apply backed_insert_ne).
  assert (backed c (<[bc := lc]> m) bc 0 lc) as Hdst.
  { destruct Hb as (Hd & Hl & Ho & Hn & Hlen). unfold backed, c. simpl.
    rewrite lookup_insert_eq. fold n. repeat split; try done; lia. }
  unfold deep_copy_of. simpl.
  split; [done|]. split; [done|]. split; [done|]. split; [done|].
  split.
  { destruct Hb as (Hd & _). exists b, ofs, bc, 0. by rewrite Hd. }
  split; [|split].
  - intros i Hi.
    rewrite (get_i_ok _ _ _ _ _ i Hsrc Hi), (get_i_ok c _ _ _ _ i Hdst Hi).
    rewrite Hsame by done. split; [done|].
    destruct (l !! Z.to_nat (ofs + i)) as [x|] eqn:Hx; [by exists x|].
    apply lookup_ge_None in Hx.
    destruct Hb as (_ & _ & Ho & Hn & Hlen). fold n in Hi. lia.
  - by eapply independent_blocks.
  - eapply independent_blocks; [exact Hdst | exact Hsrc | done].
Qed.

(** The duplicate holds what the source held before, and the source still
    holds it: [m0] is the heap before the call, [m] the heap in which the
    duplicate is made. *)
Lemma duplicate_copies_contents src m0 m b ofs l :
  backed src m0 b ofs l -> backed src m b ofs l ->
  let n := stride src * h src in
  let bc := fresh (dom m) in
  let lc := list_inserts 0 (take (Z.to_nat n) (drop (Z.to_nat ofs) l))
              (replicate (Z.to_nat n) Indet) in
  copies_contents src
    (mkMinimalImage (w src) (h src) (stride src) (Ptr bc 0) true)
    m0 (<[bc := lc]> m).
Proof.
  intros Hb0 Hb n bc lc.
  destruct (duplicate_ok src m b ofs l Hb) as (_ & _ & _ & Hne & Hlc & Hsame).
  fold n bc lc in Hne, Hlc, Hsame.
  set (c := mkMinimalImage (w src) (h src) (stride src) (Ptr bc 0) true).
  assert (backed src (<[bc := lc]> m) b ofs l) as Hsrc
    by (by apply backed_insert_ne).
  assert (backed c (<[bc := lc]> m) bc 0 lc) as Hdst.
  { destruct Hb as (Hd & Hl & Ho & Hn & Hlen). unfold backed, c. simpl.
    rewrite lookup_insert_eq. fold n. repeat split; try done; lia. }
  intros i Hi.
  rewrite (get_i_ok _ _ _ _ _ i Hsrc Hi), (get_i_ok _ _ _ _ _ i Hb0 Hi).
  rewrite (get_i_ok c _ _ _ _ i Hdst Hi), Hsame by done. done.
Qed.

Lemma MinimalImage_copy_owning src m b ofs l :
  backed src m b ofs l -> ownData src = true ->
  exists dst m',
    MinimalImage_copy src m = Ok (dst, m') /\
    deep_copy_of src dst m' /\ copies_contents src dst m m'.
Proof.
  intros Hb Hown.
  destruct (duplicate_ok src m b ofs l Hb) as (Hmul & Hnew & Hcpy & _).
  do 2 eexists. split; [|split].
  - unfold MinimalImage_copy. rewrite Hown, Hmul, bind_Ok, Hnew, bind_Ok.
    cbn beta iota. rewrite Hcpy, bind_Ok. done.
  - by apply (duplicate_deep_copy src m b ofs l).
  - by apply (duplicate_copies_contents src m m b ofs l).
Qed.

Lemma release_keeps img m b ofs l self :
  backed img m b ofs l -> releasable self m ->
  (ownData self = true -> forall o, data self <> Ptr b o) ->
  exists m1, release self m = Ok m1 /\ backed img m1 b ofs l.
Proof.
  intros Hb Hrel Hexcl. unfold release.
  destruct (ownData self) eqn:Hown; simpl; [|by eexists].
  case_bool_decide as Hnull; [|by eexists].
  destruct (Hrel Hown Hnull) as (bs & ls & Hd & Hbs).
  rewrite Hd. simpl. rewrite Hbs. eexists. split; [done|].
  destruct Hb as (Hdata & Hl & Ho & Hn & Hlen). unfold backed.
  rewrite lookup_delete_ne; [done|]. intros ->. by apply (Hexcl eq_refl 0).
Qed.

(** X18: [getClone()] on a valid buffer whose stride is positive, or equal
    to its width, completes whatever the ownership mode of the original and
    returns an owning buffer with the same [w], [h] and [stride] and a block
    of its own; over all [stride * h] elements the clone reads what the
    original read before the call, and so does the original still;
    assigning an element of either buffer leaves the other unchanged. *)
Theorem getClone_deep_copy src m b ofs l :
  backed src m b ofs l -> 0 < stride src \/ stride src = w src ->
  exists dst m',
    getClone src m = Ok (dst, m') /\
    deep_copy_of src dst m' /\ copies_contents src dst m m'.
Proof.
  intros Hb Hs.
  destruct (duplicate_ok src m b ofs l Hb) as (_ & _ & Hcpy & _).
  assert (0 <= stride src * h src <= max_int) as Hn by apply Hb.
  assert ((if bool_decide (stride src > 0) then stride src else w src)
          = stride src) as Hres.
  { case_bool_decide; [done|]. destruct Hs; [lia | done]. }
  do 2 eexists. split; [|split].
  - unfold getClone.
    rewrite (MinimalImage_new_ok _ _ (stride src)) by done.
    rewrite bind_Ok. cbn beta iota. cbn [data]. rewrite Hcpy, bind_Ok. done.
  - by apply (duplicate_deep_copy src m b ofs l).
  - by apply (duplicate_copies_contents src m m b ofs l).
Qed.

Lemma assign_owning src self (this other : addr) os m b ofs l :
  backed src m b ofs l -> ownData src = true ->
  this <> other -> os !! other = Some src -> os !! this = Some self ->
  releasable self m ->
  (ownData self = true -> forall o, data self <> Ptr b o) ->
  exists os' m' dst,
    assign this other os m = Ok (os', m') /\
    os' !! this = Some dst /\ os' !! other = Some src /\
    deep_copy_of src dst m' /\ copies_contents src dst m m'.
Proof.
  intros Hb Hown Hne Ho Ht Hrel Hexcl.
  destruct (release_keeps _ _ _ _ _ _ Hb Hrel Hexcl) as (m1 & Hm1 & Hb1).
  destruct (duplicate_ok src m1 b ofs l Hb1) as (Hmul & Hnew & Hcpy & _).
  do 3 eexists. split; [|split; [|split; [|split]]].
  - unfold assign, deref. rewrite bool_decide_eq_true_2 by done.
    rewrite Ht, bind_Ok, Hm1, bind_Ok, Ho, bind_Ok.
    rewrite Hown, Hmul, bind_Ok, Hnew, bind_Ok.
    cbn beta iota. rewrite Hcpy, bind_Ok. done.
  - by rewrite lookup_insert_eq.
  - by rewrite lookup_insert_ne.
  - by apply (duplicate_deep_copy src m1 b ofs l).
  - by apply (duplicate_copies_contents src m m1 b ofs l).
Qed.

Lemma MinimalImage_copy_borrowing src m b ofs l :
  backed src m b ofs l -> ownData src = false ->
  exists dst,
    MinimalImage_copy src m = Ok (dst, m) /\
    alias_of src dst m /\ copies_contents src dst m m.
Proof.
  intros Hb Hown. eexists. split; [|split].
  - unfold MinimalImage_copy. by rewrite Hown.
  - set (dst := mkMinimalImage _ _ _ _ _).
    assert (backed dst m b ofs l) as Hdst
      by (by apply (backed_same_geometry src)).
    unfold alias_of. repeat split; try done.
    + by apply (shares_storage _ _ _ b ofs l).
    + by apply (shares_storage _ _ _ b ofs l).
  - set (dst := mkMinimalImage _ _ _ _ _).
    assert (backed dst m b ofs l) as Hdst
      by (by apply (backed_same_geometry src)).
    intros i Hi. split; [done|].
    by rewrite (get_i_ok dst _ _ _ _ i Hdst Hi), (get_i_ok _ _ _ _ _ i Hb Hi).
Qed.

(** C1: copy construction and copy assignment from a valid buffer [src]
    that owns its storage yield a buffer with the same [w], [h] and [stride]
    and an owned block of its own; over all [stride * h] elements the copy
    reads what the source read before the call, the source still reads the
    same, and the two agree element-wise, so that assigning an element of
    either buffer leaves every element of the other unchanged; copy
    construction from a valid buffer [view] that borrows its storage
    allocates nothing, leaves the heap as it was and yields a non-owning
    buffer with the same storage pointer, so that an element assigned
    through either buffer is read back through the other.  For the
    assignment the destination is another object, whose own storage can be
    released and is not the source's. *)
Theorem copy_deep_when_owning_shallow_when_borrowing
    (src view self : MinimalImage) (this other : addr) os m
    b ofs l b' ofs' l' :
  backed src m b ofs l -> ownData src = true ->
  this <> other -> os !! other = Some src -> os !! this = Some self ->
  releasable self m ->
  (ownData self = true -> forall o, data self <> Ptr b o) ->
  backed view m b' ofs' l' -> ownData view = false ->
  (exists dst m',
     MinimalImage_copy src m = Ok (dst, m') /\
     deep_copy_of src dst m' /\ copies_contents src dst m m') /\
  (exists os' m' dst,
     assign this other os m = Ok (os', m') /\
     os' !! this = Some dst /\ os' !! other = Some src /\
     deep_copy_of src dst m' /\ copies_contents src dst m m') /\
  (exists dst,
     MinimalImage_copy view m = Ok (dst, m) /\
     alias_of view dst m /\ copies_contents view dst m m).
Proof.
  intros Hb Hown Hne Ho Ht Hrel Hexcl Hv Hvown.
  split; [by eapply MinimalImage_copy_owning|].
  split; [by eapply assign_owning|].
  by eapply MinimalImage_copy_borrowing.
Qed.

End copying.

(** ** The examples of the specification, by evaluation *)

(** An owning 4x3 byte buffer has stride 4 and 12 elements; after
    [setConst(7)] the pixel [at(2, 1)] reads 7. *)
Example new_4x3_setConst :
  ('(img, m) ← MinimalImage_new 4 3 default_stride (∅ : gmap block (list (cell Z)));
   m' ← setConst img 7 m;
   c ← get_at img 2 1 m';
   Ok (stride img, length <$> m' !! 1%positive, c))
  = Ok (4, Some 12%nat, Some (Val 7)).
Proof. vm_compute. reflexivity. Qed.

(** [setPixel4(1.0, 1.0, 9)] on a zeroed 4x3 buffer sets exactly
    [(1,1)], [(2,1)], [(1,2)], [(2,2)]. *)
Example setPixel4_1_1 :
  ('(img, m) ← MinimalImage_new 4 3 default_stride (∅ : gmap block (list (cell Z)));
   m1 ← setBlack 0 img m;
   m2 ← setPixel4 img f1_0 f1_0 9 m1;
   Ok (m2 !! 1%positive))
  = Ok (Some [Val 0; Val 0; Val 0; Val 0;
              Val 0; Val 9; Val 9; Val 0;
              Val 0; Val 9; Val 9; Val 0]).
Proof. vm_compute. reflexivity. Qed.

(** [setPixel9(2, 2, 1)] on a zeroed 5x5 buffer sets exactly the nine cells
    of [[1,3] x [1,3]]. *)
Example setPixel9_2_2 :
  ('(img, m) ← MinimalImage_new 5 5 default_stride (∅ : gmap block (list (cell Z)));
   m1 ← setBlack 0 img m;
   m2 ← setPixel9 img 2 2 1 m1;
   Ok (m2 !! 1%positive))
  = Ok (Some [Val 0; Val 0; Val 0; Val 0; Val 0;
              Val 0; Val 1; Val 1; Val 1; Val 0;
              Val 0; Val 1; Val 1; Val 1; Val 0;
              Val 0; Val 1; Val 1; Val 1; Val 0;
              Val 0; Val 0; Val 0; Val 0; Val 0]).
Proof. vm_compute. reflexivity. Qed.

(** Destroying a wrapping buffer leaves the wrapped array in place. *)
Example destroy_view_keeps_array :
  MinimalImage_destroy view_image demo_heap = Ok demo_heap.
Proof. reflexivity. Qed.

(** The constants of the float model are binary32 values. *)
Example demo_floats_valid :
  is_float half /\ is_float f1_25 /\ is_float f2_0 /\ is_float f1_0 /\
  is_float fm0_75 /\ is_float fm0_5.
Proof. by vm_compute. Qed.

(** Outside the contract of the markers, on negative coordinates, the
    conversion to [int] discards the fraction toward zero where the floor
    goes down: [-0.75f + 0.5f] converts to 0 and [-0.5f] converts to 0. *)
Example float_to_int_toward_zero :
  float_to_int (float_add fm0_75 half) = Ok 0 /\
  float_floor (float_add fm0_75 half) = Some (-1) /\
  float_to_int fm0_5 = Ok 0 /\ float_floor fm0_5 = Some (-1).
Proof. by vm_compute. Qed.

(** ** The theorems at concrete buffers *)

Ltac demo_backed :=
  unfold backed, max_int; simpl; repeat split; try reflexivity; lia.

Lemma at_xy_is_at_linear_witness :
  backed small_image demo_heap 1%positive 0 (replicate 12 (Val 1)) /\
  at_xy small_image 2 1 demo_heap = at_i small_image (2 + 1 * 4) demo_heap /\
  at_xy_const small_image 2 1 demo_heap
    = at_i_const small_image (2 + 1 * 4) demo_heap /\
  at_xy small_image 2 1 demo_heap = Ok (1%positive, Z.to_nat (0 + (2 + 1 * 4))).
Proof.
  split; [demo_backed|].
  apply (at_xy_is_at_linear small_image demo_heap 1%positive 0
           (replicate 12 (Val 1)) 2 1).
  - demo_backed.
  - simpl. lia.
  - simpl. lia.
Defined.

Lemma setConst_fills_image_only_witness :
  backed padded_image demo_heap 2%positive 0 (replicate 20 (Val 2)) /\
  w padded_image <= stride padded_image /\
  exists m',
    setConst padded_image 7 demo_heap = Ok m' /\
    (forall x y, 0 <= x < 3 -> 0 <= y < 2 ->
       get_at padded_image x y m' = Ok (Some (Val 7))) /\
    (forall x y, 3 <= x < 4 -> 0 <= y < 2 ->
       get_at padded_image x y m' = get_at padded_image x y demo_heap).
Proof.
  split; [demo_backed|]. split; [simpl; lia|].
  apply (setConst_fills_image_only padded_image 7 demo_heap 2%positive 0
           (replicate 20 (Val 2))).
  - demo_backed.
  - simpl. lia.
Defined.

Lemma setBlack_zeroes_store_witness :
  backed view_image demo_heap 2%positive 0 (replicate 20 (Val 2)) /\
  exists m',
    setBlack 0 view_image demo_heap = Ok m' /\
    (forall i, 0 <= i < 5 * 4 -> get_i view_image i m' = Ok (Some (Val 0))) /\
    (5 <= 5 ->
     forall x y, 0 <= x < 5 -> 0 <= y < 4 ->
       get_at view_image x y m' = Ok (Some (Val 0))).
Proof.
  split; [demo_backed|].
  apply (setBlack_zeroes_store 0 view_image demo_heap 2%positive 0
           (replicate 20 (Val 2))).
  demo_backed.
Defined.

Lemma constructors_resolve_stride_witness :
  0 < 4 /\ 0 < 3 /\
  stride (MinimalImage_wrap 4 3 (Ptr 2%positive 0) default_stride) = 4 /\
  exists img m' b l,
    MinimalImage_new 4 3 default_stride demo_heap = Ok (img, m') /\
    stride img = 4 /\ ownData img = true /\ data img = Ptr b 0 /\
    demo_heap !! b = None /\ m' !! b = Some l /\ Z.of_nat (length l) = 12.
Proof.
  split; [lia|]. split; [lia|].
  destruct (constructors_resolve_stride (T:=Z) 4 3 default_stride
              (Ptr 2%positive 0) demo_heap)
    as (_ & _ & Hwrap & img & m' & b & l & Hnew & Hs & _ & _ & Hw & Hh & Hown
        & Hd & Hfresh & Hl & Hlen).
  - lia.
  - lia.
  - intros _. unfold max_int. simpl. lia.
  - unfold default_stride. lia.
  - split; [exact Hwrap|]. exists img, m', b, l.
    rewrite Hs, Hh in Hlen by (unfold default_stride; lia).
    repeat split; try done. apply Hs. unfold default_stride. lia.
Defined.

Lemma move_transfers_storage_witness :
  10%positive <> 11%positive /\
  demo_objects !! 11%positive = Some small_image /\
  (MinimalImage_move small_image).1 = small_image /\
  data (MinimalImage_move small_image).2 = nullptr /\
  ownData (MinimalImage_move small_image).2 = false /\
  exists os' m' b',
    move_assign 10%positive 11%positive demo_objects demo_heap = Ok (os', m') /\
    release (mkMinimalImage 0 0 0 nullptr false) demo_heap = Ok m' /\
    os' !! 10%positive = Some small_image /\
    os' !! 11%positive = Some b' /\ data b' = nullptr /\ ownData b' = false.
Proof.
  split; [lia|]. split; [reflexivity|].
  apply (move_transfers_storage small_image (mkMinimalImage 0 0 0 nullptr false)
           10%positive 11%positive demo_objects demo_heap).
  - lia.
  - reflexivity.
  - reflexivity.
  - unfold releasable. simpl. discriminate.
Defined.



Lemma setPixel4_writes_block_witness :
  float_floor f1_25 = Some 1 /\ float_floor f1_25 = Some 1 /\
  exists m',
    setPixel4 small_image f1_25 f1_25 9 demo_heap = Ok m' /\
    get_at small_image 1 1 m' = Ok (Some (Val 9)) /\
    get_at small_image (1 + 1) 1 m' = Ok (Some (Val 9)) /\
    get_at small_image 1 (1 + 1) m' = Ok (Some (Val 9)) /\
    get_at small_image (1 + 1) (1 + 1) m' = Ok (Some (Val 9)) /\
    (forall lv : lval,
       lv <> (1%positive, pixel_index small_image 0 (1, 1)) ->
       lv <> (1%positive, pixel_index small_image 0 (1 + 1, 1)) ->
       lv <> (1%positive, pixel_index small_image 0 (1, 1 + 1)) ->
       lv <> (1%positive, pixel_index small_image 0 (1 + 1, 1 + 1)) ->
       load lv m' = load lv demo_heap).
Proof.
  split; [reflexivity|]. split; [reflexivity|].
  apply (setPixel4_writes_block small_image demo_heap 1%positive 0
           (replicate 12 (Val 1)) f1_25 f1_25 9 1 1).
  - demo_backed.
  - reflexivity.
  - reflexivity.
  - lia.
  - simpl. lia.
  - lia.
  - simpl. lia.
Defined.

Lemma setPixelCirc_spares_centre_witness :
  backed square_image demo_heap 3%positive 0 (replicate 49 (Val 3)) /\
  exists m',
    setPixelCirc square_image 3 3 9 demo_heap = Ok m' /\
    (forall dx dy, -1 <= dx <= 1 -> -1 <= dy <= 1 ->
       get_at square_image (3 + dx) (3 + dy) m'
         = get_at square_image (3 + dx) (3 + dy) demo_heap) /\
    get_at square_image 3 3 m' = get_at square_image 3 3 demo_heap.
Proof.
  split; [demo_backed|].
  destruct (setPixelCirc_spares_centre square_image demo_heap 3%positive 0
              (replicate 49 (Val 3)) 3 3 9)
    as (_ & _ & m' & Hrun & Hcentre & Hmid & _).
  - demo_backed.
  - lia.
  - simpl. lia.
  - lia.
  - simpl. lia.
  - exists m'. split; [exact Hrun|]. split; [exact Hcentre | exact Hmid].
Defined.

Lemma copy_deep_when_owning_shallow_when_borrowing_witness :
  backed small_image demo_heap 1%positive 0 (replicate 12 (Val 1)) /\
  ownData small_image = true /\
  backed view_image demo_heap 2%positive 0 (replicate 20 (Val 2)) /\
  ownData view_image = false /\
  (exists dst m',
     MinimalImage_copy small_image demo_heap = Ok (dst, m') /\
     deep_copy_of small_image dst m' /\
     copies_contents small_image dst demo_heap m') /\
  (exists os' m' dst,
     assign 10%positive 11%positive demo_objects demo_heap = Ok (os', m') /\
     os' !! 10%positive = Some dst /\ os' !! 11%positive = Some small_image /\
     deep_copy_of small_image dst m' /\
     copies_contents small_image dst demo_heap m') /\
  (exists dst,
     MinimalImage_copy view_image demo_heap = Ok (dst, demo_heap) /\
     alias_of view_image dst demo_heap /\
     copies_contents view_image dst demo_heap demo_heap).
Proof.
  split; [demo_backed|]. split; [reflexivity|].
  split; [demo_backed|]. split; [reflexivity|].
  apply (copy_deep_when_owning_shallow_when_borrowing
           small_image view_image (mkMinimalImage 0 0 0 nullptr false)
           10%positive 11%positive demo_objects demo_heap
           1%positive 0 (replicate 12 (Val 1))
           2%positive 0 (replicate 20 (Val 2))).
  - demo_backed.
  - reflexivity.
  - lia.
  - reflexivity.
  - reflexivity.
  - unfold releasable. simpl. discriminate.
  - simpl. discriminate.
  - demo_backed.
  - reflexivity.
Defined.

(** ** Storage lifetime: construction, destruction and assignment *)

Section lifetime.

Context {T : Type}.
Implicit Types (img src dst self : MinimalImage).
Implicit Types (m : gmap block (list (cell T))) (l : list (cell T)).
Implicit Types (os : gmap addr MinimalImage).

Lemma release_owning img m b l :
  ownData img = true -> data img = Ptr b 0 -> m !! b = Some l ->
  release img m = Ok (delete b m).
Proof.
  intros Hown Hd Hb. unfold release. rewrite Hown, Hd.
  rewrite bool_decide_eq_true_2 by done. simpl. by rewrite Hb.
Qed.

Lemma release_view img m : ownData img = false -> release img m = Ok m.
Proof. intros Hown. unfold release. by rewrite Hown. Qed.

Lemma new_array_inv n m p m' :
  new_array n m = Ok (p, m') ->
  0 <= n /\ p = Ptr (fresh (dom m)) 0 /\
  m' = <[fresh (dom m) := replicate (Z.to_nat n) Indet]> m.
Proof.
  unfold new_array. case_bool_decide; [discriminate|].
  intros [= <- <-]. repeat split; [lia | done..].
Qed.

Lemma MinimalImage_new_inv (w_ h_ stride_ : Z) m img m' :
  MinimalImage_new w_ h_ stride_ m = Ok (img, m') ->
  exists s,
    (if bool_decide (stride_ > 0) then stride_ else w_) = s /\
    0 <= s * h_ <= max_int /\
    img = mkMinimalImage w_ h_ s (Ptr (fresh (dom m)) 0) true /\
    m' = <[fresh (dom m) := replicate (Z.to_nat (s * h_)) Indet]> m.
Proof.
  unfold MinimalImage_new.
  set (s := if bool_decide (stride_ > 0) then stride_ else w_).
  destruct (int_mul s h_) as [n|e] eqn:Hmul; [|discriminate].
  apply int_of_inv in Hmul as [-> Hn]. rewrite bind_Ok.
  destruct (new_array (s * h_) m) as [[p m1]|e] eqn:Hnew; [|discriminate].
  apply new_array_inv in Hnew as (Hn0 & -> & ->). rewrite bind_Ok.
  intros [= <- <-]. exists s. repeat split; (done || lia).
Qed.

(** A buffer the owning constructor returned is valid, over a block of
    exactly [stride * h] uninitialised elements. *)
Lemma MinimalImage_new_backed (w_ h_ stride_ : Z) m img m' :
  MinimalImage_new w_ h_ stride_ m = Ok (img, m') ->
  backed img m' (fresh (dom m)) 0
    (replicate (Z.to_nat (stride img * h img)) Indet) /\
  w img = w_ /\ h img = h_ /\ 0 <= stride img * h img.
Proof.
  intros (s & _ & Hn & -> & ->)%MinimalImage_new_inv. simpl.
  unfold backed. simpl. rewrite lookup_insert_eq, length_replicate.
  repeat split; try done; lia.
Qed.

Lemma memcpy_inv (dst src : ptr) n m m' :
  memcpy dst src n m = Ok m' ->
  exists bd od l', dst = Ptr bd od /\ m' = <[bd := l']> m.
Proof.
  unfold memcpy. destruct dst as [|bd od]; [discriminate|].
  destruct src as [|bs os']; [discriminate|].
  destruct (m !! bd) as [ld|]; [|discriminate].
  destruct (m !! bs) as [ls|]; [|discriminate].
  case_bool_decide; [|discriminate].
  intros [= <-]. by do 3 eexists.
Qed.

(** X1: whenever the owning constructor returns a buffer, destroying that
    buffer gives back exactly the heap the constructor started from: the
    block it allocated is released and nothing else changed. *)
Theorem new_then_destroy_restores_heap (w_ h_ stride_ : Z) m img m' :
  MinimalImage_new w_ h_ stride_ m = Ok (img, m') ->
  MinimalImage_destroy img m' = Ok m.
Proof.
  intros (s & _ & Hn & -> & ->)%MinimalImage_new_inv.
  unfold MinimalImage_destroy.
  rewrite (release_owning _ _ (fresh (dom m))
             (replicate (Z.to_nat (s * h_)) Indet))
    by (done || apply lookup_insert_eq).
  f_equal. apply delete_insert_id, fresh_block_unused.
Qed.

(** X2: whenever the copy constructor returns a buffer, destroying the copy
    gives back exactly the heap before the copy, whether the source owned its
    storage (the duplicate block is released) or borrowed it (nothing is
    released): the source's storage is never touched. *)
Theorem copy_then_destroy_restores_heap src m dst m' :
  MinimalImage_copy src m = Ok (dst, m') ->
  MinimalImage_destroy dst m' = Ok m.
Proof.
  unfold MinimalImage_copy, MinimalImage_destroy.
  destruct (ownData src) eqn:Hown.
  - destruct (int_mul (stride src) (h src)) as [n|e]; [|discriminate].
    rewrite bind_Ok.
    destruct (new_array n m) as [[p m1]|e] eqn:Hnew; [|discriminate].
    apply new_array_inv in Hnew as (Hn0 & -> & ->). rewrite bind_Ok.
    cbn beta iota.
    destruct (memcpy _ _ _ _) as [m2|e] eqn:Hcpy; [|discriminate].
    apply memcpy_inv in Hcpy as (bd & od & l' & [= <- <-] & ->).
    rewrite bind_Ok. intros [= <- <-].
    rewrite (release_owning _ _ (fresh (dom m)) l')
      by (done || apply lookup_insert_eq).
    f_equal. rewrite delete_insert_eq.
    apply delete_insert_id, fresh_block_unused.
  - intros [= <- <-]. by apply release_view.
Qed.

(** X3: for a buffer that owns a live block, after move construction the
    destructors of the destination and of the moved-from object release the
    block exactly once, in either order, while running the destructor of one
    owning buffer twice is undefined (a double [delete[]]). *)
Theorem move_then_destroy_releases_once src m b l :
  ownData src = true -> data src = Ptr b 0 -> m !! b = Some l ->
  (MinimalImage_destroy (MinimalImage_move src).1 m
     ≫= MinimalImage_destroy (MinimalImage_move src).2) = Ok (delete b m) /\
  (MinimalImage_destroy (MinimalImage_move src).2 m
     ≫= MinimalImage_destroy (MinimalImage_move src).1) = Ok (delete b m) /\
  (MinimalImage_destroy src m ≫= MinimalImage_destroy src) = Err UB.
Proof.
  intros Hown Hd Hb. unfold MinimalImage_destroy. simpl.
  rewrite MinimalImage_eta.
  rewrite (release_owning _ _ _ _ Hown Hd Hb), !bind_Ok.
  split; [by apply release_view|]. split; [done|].
  unfold release. rewrite Hown, Hd.
  rewrite bool_decide_eq_true_2 by done. simpl.
  by rewrite lookup_delete_eq.
Qed.

Lemma index_dangling (b : block) (ofs i : Z) m :
  m !! b = None -> index (Ptr b ofs) i m = Err UB.
Proof. intros Hb. unfold index. by rewrite Hb. Qed.

Lemma at_xy_dangling img b ofs x y m :
  data img = Ptr b ofs -> m !! b = None -> at_xy img x y m = Err UB.
Proof.
  intros Hd Hb. unfold at_xy, int_mul, int_add, int_of.
  case_bool_decide; [|done]. rewrite bind_Ok.
  case_bool_decide; [|done]. rewrite bind_Ok.
  rewrite Hd. by apply index_dangling.
Qed.

Lemma at_i_dangling img b ofs i m :
  data img = Ptr b ofs -> m !! b = None -> at_i img i m = Err UB.
Proof. intros Hd Hb. unfold at_i. rewrite Hd. by apply index_dangling. Qed.


(** X5: copy assignment to an owning buffer from a view of that buffer's
    own storage releases the storage and then adopts the view's pointer:
    the assignment itself completes, and afterwards every [at(x, y)] and
    [at(i)] through the destination or through the view is undefined. *)
Theorem assign_from_own_view_dangles src self (this other : addr) os m b ofs l :
  this <> other ->
  os !! this = Some self -> ownData self = true -> data self = Ptr b 0 ->
  m !! b = Some l ->
  os !! other = Some src -> ownData src = false -> data src = Ptr b ofs ->
  exists os' dst,
    assign this other os m = Ok (os', delete b m) /\
    os' !! this = Some dst /\ os' !! other = Some src /\
    data dst = Ptr b ofs /\ ownData dst = false /\
    (forall x y, at_xy dst x y (delete b m) = Err UB /\
                 at_xy src x y (delete b m) = Err UB) /\
    (forall i, at_i dst i (delete b m) = Err UB /\
               at_i src i (delete b m) = Err UB).
Proof.
  intros Hne Ht Hown Hd Hb Ho Hview Hsrc.
  set (dst := mkMinimalImage (w src) (h src) (stride src) (data src) false).
  exists (<[this := dst]> os), dst.
  assert (delete b m !! b = None) as Hgone by apply lookup_delete_eq.
  split; [|split; [|split; [|split; [|split; [|split]]]]].
  - unfold assign, deref. rewrite bool_decide_eq_true_2 by done.
    rewrite Ht, bind_Ok, (release_owning _ _ _ _ Hown Hd Hb), bind_Ok.
    by rewrite Ho, bind_Ok, Hview.
  - by rewrite lookup_insert_eq.
  - by rewrite lookup_insert_ne.
  - done.
  - done.
  - intros x y. split; by apply (at_xy_dangling _ b ofs).
  - intros i. split; by apply (at_i_dangling _ b ofs).
Qed.

(** X6: move assignment to an owning buffer from a valid buffer over other
    storage releases the destination's previous block, which is live no
    longer, and hands over the source's storage untouched: the destination
    is the source's former state and is valid over the same elements. *)
Theorem move_assign_releases_old_storage
    src self (this other : addr) os m b ofs l bs ls :
  this <> other -> os !! other = Some src -> os !! this = Some self ->
  backed src m b ofs l ->
  ownData self = true -> data self = Ptr bs 0 -> m !! bs = Some ls ->
  bs <> b ->
  exists os',
    move_assign this other os m = Ok (os', delete bs m) /\
    os' !! this = Some src /\
    delete bs m !! bs = None /\
    backed src (delete bs m) b ofs l /\
    (forall i, 0 <= i < stride src * h src ->
       get_i src i (delete bs m) = get_i src i m).
Proof.
  intros Hne Ho Ht Hb Hown Hd Hbs Hbb.
  assert (backed src (delete bs m) b ofs l) as Hb'.
  { destruct Hb as (Hdata & Hl & Hofs & Hn & Hlen). unfold backed.
    by rewrite lookup_delete_ne. }
  eexists. split; [|split; [|split; [|split]]].
  - unfold move_assign, deref. rewrite bool_decide_eq_true_2 by done.
    rewrite Ht, bind_Ok, (release_owning _ _ _ _ Hown Hd Hbs), bind_Ok.
    by rewrite Ho, bind_Ok.
  - rewrite lookup_insert_ne, lookup_insert_eq by done.
    by rewrite MinimalImage_eta.
  - apply lookup_delete_eq.
  - done.
  - intros i Hi.
    by rewrite (get_i_ok _ _ _ _ _ _ Hb' Hi), (get_i_ok _ _ _ _ _ _ Hb Hi).
Qed.

End lifetime.

(** ** Unchecked access *)

Section unchecked.

Context {T : Type}.
Implicit Types (img : MinimalImage).
Implicit Types (m : gmap block (list (cell T))) (l : list (cell T)) (val : T).

(** X7: [at(x, y)] does not check [x] against the stride: on a valid
    buffer, column [x + stride] of row [y] is the same element as column [x]
    of row [y + 1], whenever that row exists. *)
Theorem at_xy_wraps_to_next_row img m b ofs l x y :
  backed img m b ofs l ->
  0 <= x < stride img -> 0 <= y -> y + 1 < h img ->
  at_xy img (x + stride img) y m = at_xy img x (y + 1) m /\
  at_xy img x (y + 1) m =
    Ok (b, Z.to_nat (ofs + (x + (y + 1) * stride img))).
Proof.
  intros Hb Hx Hy0 Hy1.
  assert (in_image img (x, y + 1)) as Hp by (unfold in_image; simpl; lia).
  rewrite (at_xy_ok _ _ _ _ _ _ _ Hb Hp).
  split; [|done].
  destruct Hb as (Hd & Hl & Ho & Hn & Hlen).
  assert (0 <= y * stride img /\ x + stride img + y * stride img
            = x + (y + 1) * stride img /\
          x + (y + 1) * stride img < stride img * h img) as (? & Heq & ?)
    by nia.
  pose proof min_int_val.
  unfold at_xy. rewrite int_mul_ok, bind_Ok by lia.
  rewrite int_add_ok, bind_Ok by lia.
  rewrite Hd, Heq. unfold pixel_index. cbn [fst snd].
  apply (index_ok _ _ _ l); [done | lia].
Qed.

(** X8: on a buffer the owning constructor has just returned, [at(i)] is
    defined exactly for [0 <= i < stride * h], where it designates an
    element that is still uninitialised; every other index is undefined
    behaviour, since the block holds no element beyond. *)
Theorem fresh_buffer_bounds (w_ h_ stride_ : Z) m img m' i :
  MinimalImage_new w_ h_ stride_ m = Ok (img, m') ->
  (0 <= i < stride img * h img ->
     at_i img i m' = Ok (fresh (dom m), Z.to_nat i) /\
     get_i img i m' = Ok (Some Indet)) /\
  (~ 0 <= i < stride img * h img -> at_i img i m' = Err UB).
Proof.
  intros Hnew.
  destruct (MinimalImage_new_backed _ _ _ _ _ _ Hnew) as (Hb & _ & _ & Hn).
  split.
  - intros Hi. split.
    + by rewrite (at_i_ok _ _ _ _ _ _ Hb Hi).
    + rewrite (get_i_ok _ _ _ _ _ _ Hb Hi). f_equal.
      apply lookup_replicate_2. lia.
  - intros Hi. destruct Hb as (Hd & Hl & _). unfold at_i, index.
    rewrite Hd, Hl, length_replicate.
    rewrite bool_decide_eq_false_2; [done | lia].
Qed.

(** X9: for a buffer the owning constructor has just returned with
    [w <= stride], [setConst(val)] completes; afterwards every pixel of
    [[0, w) x [0, h)] reads [val], and every element of the padding columns
    is still uninitialised. *)
Theorem new_then_setConst (w_ h_ stride_ : Z) m img m1 val :
  MinimalImage_new w_ h_ stride_ m = Ok (img, m1) ->
  w img <= stride img ->
  exists m2,
    setConst img val m1 = Ok m2 /\
    (forall x y, 0 <= x < w_ -> 0 <= y < h_ ->
       get_at img x y m2 = Ok (Some (Val val))) /\
    (forall x y, 0 <= x -> w_ <= x < stride img -> 0 <= y < h_ ->
       get_at img x y m2 = Ok (Some Indet)).
Proof.
  intros Hnew Hw.
  destruct (MinimalImage_new_backed _ _ _ _ _ _ Hnew) as (Hb & <- & <- & Hn).
  pose proof (const_pixels_in_image img Hw) as Hall.
  eexists. split; [|split].
  - rewrite setConst_writes. by apply (writes_ok _ _ _ _ _ _ _ Hb).
  - intros x y Hx Hy.
    rewrite (get_at_paint _ _ _ _ _ _ _ x y Hb Hall)
      by (unfold in_image; simpl; lia).
    rewrite bool_decide_eq_true_2; [done|]. by apply elem_of_const_pixels.
  - intros x y Hx0 Hx Hy.
    assert (in_image img (x, y)) as Hp by (unfold in_image; simpl; lia).
    rewrite (get_at_paint _ _ _ _ _ _ _ x y Hb Hall Hp).
    rewrite bool_decide_eq_false_2 by (rewrite elem_of_const_pixels; lia).
    rewrite (get_at_ok _ _ _ _ _ _ _ Hb Hp). f_equal.
    apply lookup_replicate_2.
    pose proof (pixel_index_lt _ _ _ _ _ _ Hb Hp) as Hlt.
    by rewrite length_replicate in Hlt.
Qed.

End unchecked.

(** ** How the fills compose *)

Section fill_algebra.

Context {T : Type}.
Variable zero : T.
Implicit Types (img : MinimalImage).
Implicit Types (m : gmap block (list (cell T))) (l : list (cell T)).
Implicit Types (val : T) (c : cell T).

Lemma paint_paint c1 c2 ks l :
  paint c2 ks (paint c1 ks l) = paint c2 ks l.
Proof.
  apply list_eq. intros k. rewrite !paint_lookup, paint_length.
  repeat case_bool_decide; done.
Qed.

(** With [w = stride] the pixels of [setConst] are the whole store. *)
Lemma paint_const_pixels_full img m b ofs l c :
  backed img m b ofs l -> w img = stride img -> 0 <= h img ->
  paint c (pixel_index img ofs <$> const_pixels img) l =
    list_inserts (Z.to_nat ofs)
      (replicate (Z.to_nat (stride img * h img)) c) l.
Proof.
  intros (Hd & Hl & Ho & Hn & Hlen) Hw Hh.
  set (s := stride img) in *. set (n := s * h img) in *.
  apply list_eq. intros k. rewrite paint_lookup.
  destruct (decide (Z.to_nat ofs <= k < Z.to_nat ofs + Z.to_nat n)%nat)
    as [Hin|Hout].
  - rewrite list_lookup_inserts by (rewrite ?length_replicate; lia).
    rewrite lookup_replicate_2 by lia.
    rewrite bool_decide_eq_true_2; [done|]. split; [|lia].
    set (j := Z.of_nat k - ofs).
    assert (0 <= j < n) as Hj by (unfold j; lia).
    assert (0 < s) as Hs by (unfold n in Hj; nia).
    pose proof (Z.div_mod j s ltac:(lia)) as Hdm.
    pose proof (Z.mod_pos_bound j s Hs) as Hmod.
    assert (0 <= j / s < h img) as Hdiv.
    { split; [apply Z.div_pos; lia|].
      apply Z.div_lt_upper_bound; [lia | unfold n in Hj; lia]. }
    apply list_elem_of_fmap. exists (j mod s, j / s). split.
    + unfold pixel_index. cbn [fst snd]. fold s.
      replace (ofs + (j mod s + j / s * s)) with (Z.of_nat k)
        by (unfold j in *; lia).
      by rewrite Nat2Z.id.
    + apply elem_of_const_pixels. rewrite Hw. fold s. lia.
  - assert (list_inserts (Z.to_nat ofs) (replicate (Z.to_nat n) c) l !! k
            = l !! k) as ->.
    { destruct (decide (k < Z.to_nat ofs)%nat).
      - by apply list_lookup_inserts_lt.
      - apply list_lookup_inserts_ge. rewrite length_replicate. lia. }
    rewrite bool_decide_eq_false_2; [done|].
    intros [([x y] & -> & Hxy%elem_of_const_pixels)%list_elem_of_fmap _].
    apply Hout. unfold pixel_index. cbn [fst snd]. fold s.
    rewrite Hw in Hxy. fold s in Hxy.
    assert (0 <= x + y * s < n) by (unfold n; nia). lia.
Qed.

(** X10: on a valid buffer without padding ([w = stride]) and with [h >= 0],
    [setConst] with the zero value of [T] and [setBlack] have the same
    outcome: the same heap, element for element. *)
Theorem setConst_zero_is_setBlack img m b ofs l :
  backed img m b ofs l -> w img = stride img -> 0 <= h img ->
  setConst img zero m = setBlack zero img m /\
  exists m', setBlack zero img m = Ok m'.
Proof.
  intros Hb Hw Hh.
  rewrite (memset_zero_ok zero _ _ _ _ _ Hb), setConst_writes.
  rewrite (writes_ok _ _ _ _ _ _ _ Hb)
    by (apply const_pixels_in_image; lia).
  rewrite (paint_const_pixels_full _ _ _ _ _ _ Hb Hw Hh).
  split; [done | by eexists].
Qed.

(** X11: on a valid buffer with [w <= stride], the last [setConst] wins:
    filling with one value and then with another gives the very heap that
    filling with the second value alone gives; in particular filling twice
    with one value is filling once. *)
Theorem setConst_last_wins img m b ofs l val1 val2 :
  backed img m b ofs l -> w img <= stride img ->
  (setConst img val1 m ≫= setConst img val2) = setConst img val2 m /\
  exists m', setConst img val2 m = Ok m'.
Proof.
  intros Hb Hw.
  pose proof (const_pixels_in_image img Hw) as Hall.
  rewrite !setConst_writes.
  rewrite !(writes_ok _ _ _ _ _ _ _ Hb Hall), bind_Ok, setConst_writes.
  rewrite (writes_ok img val2 _ _ b ofs
             (paint (Val val1) (pixel_index img ofs <$> const_pixels img) l));
    [|apply (backed_insert _ _ _ _ l); [done | apply paint_length]|done].
  rewrite insert_insert_eq, paint_paint.
  split; [done | by eexists].
Qed.

(** X12: the fills stay inside their own storage: after [setConst] or
    [setBlack] on a valid buffer, the buffer is still valid over a block of
    the same length, and any buffer that is valid over another block is
    valid over the very same elements. *)
Theorem fills_keep_other_buffers img other m b ofs l b2 ofs2 l2 val :
  backed img m b ofs l -> w img <= stride img ->
  backed other m b2 ofs2 l2 -> b2 <> b ->
  exists m1 m2 l1 l1',
    setConst img val m = Ok m1 /\ setBlack zero img m = Ok m2 /\
    backed img m1 b ofs l1 /\ length l1 = length l /\
    backed img m2 b ofs l1' /\ length l1' = length l /\
    backed other m1 b2 ofs2 l2 /\ backed other m2 b2 ofs2 l2.
Proof.
  intros Hb Hw Hb2 Hne.
  pose proof (const_pixels_in_image img Hw) as Hall.
  do 4 eexists. split; [|split].
  - rewrite setConst_writes. by apply (writes_ok _ _ _ _ _ _ _ Hb).
  - by apply memset_zero_ok.
  - split; [|split; [|split; [|split; [|split]]]].
    + apply (backed_insert _ _ _ _ l); [done | apply paint_length].
    + apply paint_length.
    + apply (backed_insert _ _ _ _ l); [done | apply length_inserts].
    + apply length_inserts.
    + destruct Hb2 as (Hd2 & Hl2 & Hrest). unfold backed.
      by rewrite lookup_insert_ne.
    + destruct Hb2 as (Hd2 & Hl2 & Hrest). unfold backed.
      by rewrite lookup_insert_ne.
Qed.

(** *** Leaving the allocation *)

Lemma index_same_shape (p : ptr) i m m' :
  (forall b, length <$> m' !! b = length <$> m !! b) ->
  index p i m' = index p i m.
Proof.
  intros Hshape. unfold index. destruct p as [|b ofs]; [done|].
  specialize (Hshape b).
  destruct (m' !! b) as [l'|], (m !! b) as [l0|]; simpl in Hshape;
    try discriminate; [|done].
  injection Hshape as ->. done.
Qed.

Lemma at_xy_same_shape img x y m m' :
  (forall b, length <$> m' !! b = length <$> m !! b) ->
  at_xy img x y m' = at_xy img x y m.
Proof.
  intros Hshape. unfold at_xy.
  destruct (int_mul y (stride img)) as [row|e]; [|done]. rewrite !bind_Ok.
  destruct (int_add x row) as [j|e]; [|done]. rewrite !bind_Ok.
  by apply index_same_shape.
Qed.

Lemma store_same_shape (lv : lval) val m m' :
  store lv val m = Ok m' ->
  forall b, length <$> m' !! b = length <$> m !! b.
Proof.
  unfold store. destruct (m !! lv.1) as [l0|] eqn:Hl; [|discriminate].
  case_bool_decide; [|discriminate]. intros [= <-] b.
  destruct (decide (b = lv.1)) as [->|Hne].
  - rewrite lookup_insert_eq, Hl. simpl. by rewrite length_insert.
  - by rewrite lookup_insert_ne.
Qed.

Lemma at_xy_err_UB img x y m e : at_xy img x y m = Err e -> e = UB.
Proof.
  unfold at_xy, int_mul, int_add, int_of, index.
  case_bool_decide; [rewrite bind_Ok | by intros [= <-]].
  case_bool_decide; [rewrite bind_Ok | by intros [= <-]].
  destruct (data img) as [|b ofs]; [by intros [= <-]|].
  destruct (m !! b); [|by intros [= <-]].
  case_bool_decide; [discriminate | by intros [= <-]].
Qed.

Lemma set_at_err_UB img x y val m e : set_at img x y val m = Err e -> e = UB.
Proof.
  unfold set_at. destruct (at_xy img x y m) as [lv|e'] eqn:Hat.
  - rewrite bind_Ok. unfold store. destruct (m !! lv.1); [|by intros [= <-]].
    case_bool_decide; [discriminate | by intros [= <-]].
  - intros [= <-]. by eapply at_xy_err_UB.
Qed.

(** A sequence of assignments that reaches a pixel outside the block is
    undefined as a whole. *)
Lemma writes_bad_pixel img val pts p m :
  p ∈ pts -> at_xy img p.1 p.2 m = Err UB -> writes img val pts m = Err UB.
Proof.
  revert m. induction pts as [|q pts IH]; intros m Hin Hbad.
  - by apply elem_of_nil in Hin.
  - cbn [writes].
    destruct (set_at img q.1 q.2 val m) as [m1|e] eqn:Hset.
    + rewrite bind_Ok. apply elem_of_cons in Hin as [->|Hin].
      * unfold set_at in Hset. rewrite Hbad in Hset. discriminate.
      * apply IH; [done|]. rewrite <- Hbad. apply at_xy_same_shape.
        unfold set_at in Hset.
        destruct (at_xy img q.1 q.2 m) as [lv|]; [|discriminate].
        rewrite bind_Ok in Hset. by eapply store_same_shape.
    + apply set_at_err_UB in Hset as ->. done.
Qed.

(** X13: on a buffer whose block ends with its [stride * h] elements, as the
    owning constructor allocates it, [setConst] is undefined behaviour as
    soon as the width exceeds the stride and there is a row: the last row
    runs past the end of the block. *)
Theorem setConst_overruns_narrow_stride img m b ofs l val :
  data img = Ptr b ofs -> m !! b = Some l -> 0 <= ofs ->
  Z.of_nat (length l) = ofs + stride img * h img ->
  stride img * h img <= max_int ->
  0 <= stride img < w img -> 0 < h img ->
  setConst img val m = Err UB.
Proof.
  intros Hd Hl Ho Hlen Hn Hs Hh.
  rewrite setConst_writes.
  apply (writes_bad_pixel _ _ _ (stride img, h img - 1)).
  - apply elem_of_const_pixels. lia.
  - cbn [fst snd]. unfold at_xy.
    pose proof min_int_val.
    assert (0 <= (h img - 1) * stride img /\
            stride img + (h img - 1) * stride img = stride img * h img)
      as [? Heq] by nia.
    rewrite int_mul_ok, bind_Ok by lia.
    rewrite int_add_ok, bind_Ok by lia.
    rewrite Hd, Heq. unfold index. rewrite Hl.
    rewrite bool_decide_eq_false_2; [done | lia].
Qed.

End fill_algebra.

(** ** How the markers compose, and where they land *)

Section marker_algebra.

Context {T : Type}.
Implicit Types (img : MinimalImage).
Implicit Types (m : gmap block (list (cell T))) (l : list (cell T)).
Implicit Types (val : T) (c : cell T).

Lemma paint_disjoint_comm c1 c2 (ks1 ks2 : list nat) l :
  (forall k, k ∈ ks1 -> k ∉ ks2) ->
  paint c1 ks1 (paint c2 ks2 l) = paint c2 ks2 (paint c1 ks1 l).
Proof.
  intros Hdisj. apply list_eq. intros k.
  rewrite !paint_lookup, !paint_length.
  repeat case_bool_decide; try done.
  exfalso. by apply (Hdisj k); tauto.
Qed.

Lemma ring_or_block (dx dy : Z) :
  ~ (-1 <= dx <= 1 /\ -1 <= dy <= 1) ->
  on_ring dx dy <-> -3 <= dx <= 3 /\ -3 <= dy <= 3.
Proof. unfold on_ring. lia. Qed.

Lemma ring_not_block (dx dy : Z) :
  on_ring dx dy -> ~ (-1 <= dx <= 1 /\ -1 <= dy <= 1).
Proof. unfold on_ring. lia. Qed.

(** X14: on a valid buffer, when the 7x7 square around [(u, v)] lies in
    [[0, stride) x [0, h)], [setPixelCirc(u, v, a)] and [setPixel9(u, v, c)]
    assign disjoint pixels: run in either order they give the same heap, in
    which the 3x3 block reads [c], the rest of the 7x7 square reads [a], and
    every other pixel reads what it read before. *)
Theorem ring_and_block_tile_square img m b ofs l (u v : Z) (a c : T) :
  backed img m b ofs l ->
  0 <= u - 3 -> u + 3 < stride img -> 0 <= v - 3 -> v + 3 < h img ->
  exists m2,
    (setPixelCirc img u v a m ≫= setPixel9 img u v c) = Ok m2 /\
    (setPixel9 img u v c m ≫= setPixelCirc img u v a) = Ok m2 /\
    (forall x y, 0 <= x < stride img -> 0 <= y < h img ->
       get_at img x y m2 =
         if bool_decide (-1 <= x - u <= 1 /\ -1 <= y - v <= 1)
         then Ok (Some (Val c))
         else if bool_decide (-3 <= x - u <= 3 /\ -3 <= y - v <= 3)
              then Ok (Some (Val a))
              else get_at img x y m).
Proof.
  intros Hb Hu1 Hu2 Hv1 Hv2.
  assert (in_image img (u, v)) as Hp by (unfold in_image; simpl; lia).
  destruct (backed_dims _ _ _ _ _ _ Hb Hp) as [Hs Hh].
  pose proof min_int_val as Hmin.
  assert (0 <= ofs) as Ho by (by eapply backed_ofs).
  set (ring := shift u v <$> circ_offsets).
  set (blk := shift u v <$> block9_offsets).
  assert (Forall (in_image img) ring) as Hring.
  { apply Forall_forall. intros [x y] Hin.
    apply elem_of_shift_circ in Hin as (_ & Hx & Hy).
    unfold in_image. simpl. lia. }
  assert (Forall (in_image img) blk) as Hblk.
  { apply Forall_forall. intros [x y] Hin.
    apply elem_of_shift_block9 in Hin. unfold in_image. simpl. lia. }
  set (l1 := paint (Val a) (pixel_index img ofs <$> ring) l).
  set (l2 := paint (Val c) (pixel_index img ofs <$> blk) l).
  assert (backed img (<[b := l1]> m) b ofs l1) as Hb1
    by (apply (backed_insert _ _ _ _ l); [done | apply paint_length]).
  assert (backed img (<[b := l2]> m) b ofs l2) as Hb2
    by (apply (backed_insert _ _ _ _ l); [done | apply paint_length]).
  exists (<[b := paint (Val c) (pixel_index img ofs <$> blk) l1]> m).
  split; [|split].
  - rewrite setPixelCirc_writes by lia. fold ring.
    rewrite (writes_ok _ _ _ _ _ _ _ Hb Hring), bind_Ok.
    rewrite setPixel9_writes by lia. fold blk.
    rewrite (writes_ok _ _ _ _ _ _ _ Hb1 Hblk). by rewrite insert_insert_eq.
  - rewrite setPixel9_writes by lia. fold blk.
    rewrite (writes_ok _ _ _ _ _ _ _ Hb Hblk), bind_Ok.
    rewrite setPixelCirc_writes by lia. fold ring.
    rewrite (writes_ok _ _ _ _ _ _ _ Hb2 Hring). rewrite insert_insert_eq.
    do 2 f_equal. unfold l1, l2. symmetry. apply paint_disjoint_comm.
    intros k (p & -> & Hp1)%list_elem_of_fmap (q & Heq & Hq)%list_elem_of_fmap.
    rewrite Forall_forall in Hring, Hblk.
    apply pixel_index_inj in Heq; [|done|by apply Hblk|by apply Hring].
    subst q. destruct p as [x y].
    apply elem_of_shift_circ in Hq. apply elem_of_shift_block9 in Hp1.
    by apply ring_not_block in Hq.
  - intros x y Hx Hy.
    assert (in_image img (x, y)) as Hxy by done.
    rewrite <- (insert_insert_eq m b
                  (paint (Val c) (pixel_index img ofs <$> blk) l1) l1).
    rewrite (get_at_paint _ _ _ _ _ _ _ x y Hb1 Hblk Hxy).
    unfold l1. rewrite (get_at_paint _ _ _ _ _ _ _ x y Hb Hring Hxy).
    destruct (decide (-1 <= x - u <= 1 /\ -1 <= y - v <= 1)) as [Hin|Hout].
    + rewrite !(bool_decide_eq_true_2 _ Hin).
      rewrite bool_decide_eq_true_2; [done|]. by apply elem_of_shift_block9.
    + rewrite !(bool_decide_eq_false_2 _ Hout).
      rewrite bool_decide_eq_false_2
        by (unfold blk; by rewrite elem_of_shift_block9).
      apply (f_equal (fun t : bool =>
                        if t then Ok (Some (Val a)) else get_at img x y m)).
      apply bool_decide_ext. unfold ring. rewrite elem_of_shift_circ.
      by apply ring_or_block.
Qed.

(** *** Conversion of float coordinates *)

(** [static_cast<int>] yields the floor of a float, or, for a negative
    float that is not a whole number, the floor plus one. *)
Lemma float_to_int_near_floor (f : float) (z : Z) :
  float_to_int f = Ok z ->
  exists z', float_floor f = Some z' /\ (z = z' \/ (z = z' + 1 /\ z <= 0)).
Proof.
  destruct f as [s| | |s mm e]; simpl; try discriminate.
  - intros [= <-]. exists 0. auto.
  - intros [-> _]%int_of_inv. eexists. split; [done|].
    unfold trunc_mag. destruct s; [|by left].
    case_bool_decide as He.
    + left. change (Z.neg mm) with (- Z.pos mm). lia.
    + assert (0 < 2 ^ (- e)) as Hpow by (apply Z.pow_pos_nonneg; lia).
      change (Z.neg mm) with (- Z.pos mm).
      pose proof (Z.div_mod (Z.pos mm) (2 ^ (- e)) ltac:(lia)) as H1.
      pose proof (Z.mod_pos_bound (Z.pos mm) (2 ^ (- e)) Hpow) as H2.
      pose proof (Z.div_mod (- Z.pos mm) (2 ^ (- e)) ltac:(lia)) as H3.
      pose proof (Z.mod_pos_bound (- Z.pos mm) (2 ^ (- e)) Hpow) as H4.
      assert (0 <= Z.pos mm / 2 ^ (- e)) by (apply Z.div_pos; lia).
      nia.
Qed.

(** X15: on a valid buffer, [setPixel4(u, v, val)] stamps the 2x2 block
    whose corner [(iu, iv)] is [(u, v)] converted to [int], fraction
    discarded: when that block lies in [[0, stride) x [0, h)] the call
    completes, the four pixels read [val] and every other element of the
    heap is unchanged.  Each corner coordinate is the floor of the float
    coordinate, except that a coordinate inside (-1, 0) lands on 0. *)
Theorem setPixel4_truncates img m b ofs l (u v : float) val iu iv :
  backed img m b ofs l ->
  float_to_int u = Ok iu -> float_to_int v = Ok iv ->
  0 <= iu -> iu + 1 < stride img -> 0 <= iv -> iv + 1 < h img ->
  (exists m',
     setPixel4 img u v val m = Ok m' /\
     get_at img iu iv m' = Ok (Some (Val val)) /\
     get_at img (iu + 1) iv m' = Ok (Some (Val val)) /\
     get_at img iu (iv + 1) m' = Ok (Some (Val val)) /\
     get_at img (iu + 1) (iv + 1) m' = Ok (Some (Val val)) /\
     (forall lv : lval,
        lv <> (b, pixel_index img ofs (iu, iv)) ->
        lv <> (b, pixel_index img ofs (iu + 1, iv)) ->
        lv <> (b, pixel_index img ofs (iu, iv + 1)) ->
        lv <> (b, pixel_index img ofs (iu + 1, iv + 1)) ->
        load lv m' = load lv m)) /\
  (exists fu fv,
     float_floor u = Some fu /\ float_floor v = Some fv /\
     (iu = fu \/ (iu = 0 /\ fu = -1)) /\ (iv = fv \/ (iv = 0 /\ fv = -1))).
Proof.
  intros Hb Hu Hv Hu0 Hu1 Hv0 Hv1.
  assert (in_image img (iu, iv)) as Hp by (unfold in_image; simpl; lia).
  destruct (backed_dims _ _ _ _ _ _ Hb Hp) as [Hs Hh].
  assert (Forall (in_image img) (block4 iu iv)) as Hall.
  { unfold block4, in_image. repeat apply Forall_cons_2; simpl; try lia.
    apply Forall_nil_2. }
  assert (forall x y, in_image img (x, y) -> (x, y) ∈ block4 iu iv ->
            get_at img x y
              (<[b := paint (Val val) (pixel_index img ofs <$> block4 iu iv) l]> m)
            = Ok (Some (Val val))) as Hget.
  { intros x y Hxy Hin. rewrite (get_at_paint _ _ _ _ _ _ _ x y Hb Hall Hxy).
    by rewrite bool_decide_eq_true_2. }
  split.
  - exists (<[b := paint (Val val) (pixel_index img ofs <$> block4 iu iv) l]> m).
    split.
    { rewrite (setPixel4_writes _ _ _ _ _ iu iv) by (done || lia).
      by apply writes_ok. }
    unfold block4 in Hget.
    repeat split.
    + apply Hget; [unfold in_image; simpl; lia | set_solver].
    + apply Hget; [unfold in_image; simpl; lia | set_solver].
    + apply Hget; [unfold in_image; simpl; lia | set_solver].
    + apply Hget; [unfold in_image; simpl; lia | set_solver].
    + intros lv H1 H2 H3 H4.
      apply (load_paint img val (block4 iu iv) m b ofs l);
        [by eapply backed_lookup|].
      intros p Hin. unfold block4 in Hin.
      repeat (apply elem_of_cons in Hin as [->|Hin]; [done|]).
      by apply elem_of_nil in Hin.
  - destruct (float_to_int_near_floor _ _ Hu) as (fu & Hfu & Hcu).
    destruct (float_to_int_near_floor _ _ Hv) as (fv & Hfv & Hcv).
    exists fu, fv. repeat split; try done; lia.
Qed.

(** X16: on a valid buffer, [setPixel1(u, v, val)] writes the one pixel
    [(x, y)] obtained by converting [u + 0.5f] and [v + 0.5f] to [int],
    fraction discarded: when that pixel lies in [[0, stride) x [0, h)] the
    call completes, the pixel reads [val] and every other element of the
    heap is unchanged.  Each coordinate is the floor of the float sum,
    except that a sum inside (-1, 0) lands on 0. *)
Theorem setPixel1_truncates img m b ofs l (u v : float) val x y :
  backed img m b ofs l ->
  float_to_int (float_add u half) = Ok x ->
  float_to_int (float_add v half) = Ok y ->
  0 <= x < stride img -> 0 <= y < h img ->
  (exists m',
     setPixel1 img u v val m = Ok m' /\
     get_at img x y m' = Ok (Some (Val val)) /\
     (forall lv : lval, lv <> (b, pixel_index img ofs (x, y)) ->
        load lv m' = load lv m)) /\
  (exists fx fy,
     float_floor (float_add u half) = Some fx /\
     float_floor (float_add v half) = Some fy /\
     (x = fx \/ (x = 0 /\ fx = -1)) /\ (y = fy \/ (y = 0 /\ fy = -1))).
Proof.
  intros Hb Hu Hv Hx Hy.
  assert (in_image img (x, y)) as Hp by done.
  split.
  - exists (<[b := paint (Val val) (pixel_index img ofs <$> [(x, y)]) l]> m).
    split; [|split].
    + by apply (setPixel1_ok _ _ _ _ _ _ _ _ x y Hb).
    + rewrite (get_at_paint img val [(x, y)] m b ofs l x y Hb);
        [|by apply Forall_singleton|done].
      by rewrite bool_decide_eq_true_2 by (by apply list_elem_of_singleton).
    + intros lv Hlv.
      apply (load_paint img val [(x, y)] m b ofs l); [by eapply backed_lookup|].
      by intros p ->%list_elem_of_singleton.
  - destruct (float_to_int_near_floor _ _ Hu) as (fx & Hfx & Hcx).
    destruct (float_to_int_near_floor _ _ Hv) as (fy & Hfy & Hcy).
    exists fx, fy. repeat split; try done; lia.
Qed.

End marker_algebra.

(** ** Clones and their lifetime *)

Section clone_lifetime.

Context {T : Type}.
Implicit Types (src dst : MinimalImage) (m : gmap block (list (cell T))).

(** X20: whenever [getClone()] returns a buffer, destroying the clone gives
    back exactly the heap before the call: the clone owns a block of its
    own even when the original is a view, and the original's storage is
    never written or released. *)
Theorem clone_then_destroy_restores_heap src m dst m' :
  getClone src m = Ok (dst, m') ->
  ownData dst = true /\ MinimalImage_destroy dst m' = Ok m.
Proof.
  unfold getClone, MinimalImage_destroy.
  destruct (MinimalImage_new (w src) (h src) (stride src) m)
    as [[clone m1]|e] eqn:Hnew; [|discriminate].
  apply MinimalImage_new_inv in Hnew as (s & _ & Hn & -> & ->).
  rewrite bind_Ok. cbn beta iota. cbn [data].
  destruct (memcpy _ _ _ _) as [m2|e] eqn:Hcpy; [|discriminate].
  apply memcpy_inv in Hcpy as (bd & od & l' & [= <- <-] & ->).
  rewrite bind_Ok. intros [= <- <-]. split; [done|].
  rewrite (release_owning _ _ (fresh (dom m)) l')
    by (done || apply lookup_insert_eq).
  f_equal. rewrite delete_insert_eq.
  apply delete_insert_id, fresh_block_unused.
Qed.

End clone_lifetime.

(** ** The further theorems at concrete buffers *)

Lemma new_then_destroy_restores_heap_witness :
  MinimalImage_new 4 3 default_stride demo_heap = Ok (fresh_image, fresh_heap) /\
  MinimalImage_destroy fresh_image fresh_heap = Ok demo_heap.
Proof.
  split; [reflexivity|].
  apply (new_then_destroy_restores_heap 4 3 default_stride demo_heap).
  reflexivity.
Defined.

Lemma copy_then_destroy_restores_heap_witness :
  MinimalImage_copy small_image demo_heap = Ok (fresh_image, copied_heap) /\
  MinimalImage_destroy fresh_image copied_heap = Ok demo_heap.
Proof.
  split; [vm_compute; reflexivity|].
  apply (copy_then_destroy_restores_heap small_image demo_heap).
  vm_compute. reflexivity.
Defined.

Lemma move_then_destroy_releases_once_witness :
  demo_heap !! 1%positive = Some (replicate 12 (Val 1)) /\
  (MinimalImage_destroy (MinimalImage_move small_image).1 demo_heap
     ≫= MinimalImage_destroy (MinimalImage_move small_image).2)
    = Ok (delete 1%positive demo_heap) /\
  (MinimalImage_destroy (MinimalImage_move small_image).2 demo_heap
     ≫= MinimalImage_destroy (MinimalImage_move small_image).1)
    = Ok (delete 1%positive demo_heap) /\
  (MinimalImage_destroy small_image demo_heap
     ≫= MinimalImage_destroy small_image) = Err UB.
Proof.
  split; [reflexivity|].
  apply (move_then_destroy_releases_once small_image demo_heap 1%positive
           (replicate 12 (Val 1))); reflexivity.
Defined.


Lemma assign_from_own_view_dangles_witness :
  demo_objects2 !! 11%positive = Some small_image /\
  demo_objects2 !! 12%positive = Some small_view /\
  exists os' dst,
    assign 11%positive 12%positive demo_objects2 demo_heap
      = Ok (os', delete 1%positive demo_heap) /\
    os' !! 11%positive = Some dst /\ os' !! 12%positive = Some small_view /\
    data dst = Ptr 1%positive 0 /\ ownData dst = false /\
    (forall x y,
       at_xy dst x y (delete 1%positive demo_heap) = Err UB /\
       at_xy small_view x y (delete 1%positive demo_heap) = Err UB) /\
    (forall i,
       at_i dst i (delete 1%positive demo_heap) = Err UB /\
       at_i small_view i (delete 1%positive demo_heap) = Err UB).
Proof.
  split; [reflexivity|]. split; [reflexivity|].
  apply (assign_from_own_view_dangles small_view small_image
           11%positive 12%positive demo_objects2 demo_heap
           1%positive 0 (replicate 12 (Val 1)));
    (reflexivity || lia).
Defined.

Lemma move_assign_releases_old_storage_witness :
  backed small_image demo_heap 1%positive 0 (replicate 12 (Val 1)) /\
  exists os',
    move_assign 10%positive 11%positive demo_objects2 demo_heap
      = Ok (os', delete 3%positive demo_heap) /\
    os' !! 10%positive = Some small_image /\
    delete 3%positive demo_heap !! 3%positive = None /\
    backed small_image (delete 3%positive demo_heap) 1%positive 0
      (replicate 12 (Val 1)) /\
    (forall i, 0 <= i < stride small_image * h small_image ->
       get_i small_image i (delete 3%positive demo_heap)
         = get_i small_image i demo_heap).
Proof.
  split; [demo_backed|].
  apply (move_assign_releases_old_storage small_image square_image
           10%positive 11%positive demo_objects2 demo_heap
           1%positive 0 (replicate 12 (Val 1))
           3%positive (replicate 49 (Val 3))).
  - lia.
  - reflexivity.
  - reflexivity.
  - demo_backed.
  - reflexivity.
  - reflexivity.
  - reflexivity.
  - lia.
Defined.

Lemma at_xy_wraps_to_next_row_witness :
  backed small_image demo_heap 1%positive 0 (replicate 12 (Val 1)) /\
  at_xy small_image (1 + stride small_image) 0 demo_heap
    = at_xy small_image 1 (0 + 1) demo_heap /\
  at_xy small_image 1 (0 + 1) demo_heap
    = Ok (1%positive, Z.to_nat (0 + (1 + (0 + 1) * stride small_image))).
Proof.
  split; [demo_backed|].
  apply (at_xy_wraps_to_next_row small_image demo_heap 1%positive 0
           (replicate 12 (Val 1)) 1 0).
  - demo_backed.
  - simpl. lia.
  - lia.
  - simpl. lia.
Defined.

Lemma fresh_buffer_bounds_witness :
  MinimalImage_new 4 3 default_stride demo_heap = Ok (fresh_image, fresh_heap) /\
  ~ 0 <= 12 < stride fresh_image * h fresh_image /\
  at_i fresh_image 12 fresh_heap = Err UB.
Proof.
  split; [reflexivity|]. split; [simpl; lia|].
  apply (fresh_buffer_bounds 4 3 default_stride demo_heap fresh_image
           fresh_heap 12).
  - reflexivity.
  - simpl. lia.
Defined.

Lemma new_then_setConst_witness :
  MinimalImage_new 4 3 5 demo_heap
    = Ok (fresh_padded_image, fresh_padded_heap) /\
  w fresh_padded_image <= stride fresh_padded_image /\
  exists m2,
    setConst fresh_padded_image 7 fresh_padded_heap = Ok m2 /\
    (forall x y, 0 <= x < 4 -> 0 <= y < 3 ->
       get_at fresh_padded_image x y m2 = Ok (Some (Val 7))) /\
    (forall x y, 0 <= x -> 4 <= x < stride fresh_padded_image -> 0 <= y < 3 ->
       get_at fresh_padded_image x y m2 = Ok (Some Indet)).
Proof.
  split; [reflexivity|]. split; [simpl; lia|].
  apply (new_then_setConst 4 3 5 demo_heap).
  - reflexivity.
  - simpl. lia.
Defined.

Lemma setConst_zero_is_setBlack_witness :
  backed view_image demo_heap 2%positive 0 (replicate 20 (Val 2)) /\
  setConst view_image 0 demo_heap = setBlack 0 view_image demo_heap /\
  exists m', setBlack 0 view_image demo_heap = Ok m'.
Proof.
  split; [demo_backed|].
  apply (setConst_zero_is_setBlack 0 view_image demo_heap 2%positive 0
           (replicate 20 (Val 2))).
  - demo_backed.
  - reflexivity.
  - simpl. lia.
Defined.

Lemma setConst_last_wins_witness :
  backed padded_image demo_heap 2%positive 0 (replicate 20 (Val 2)) /\
  (setConst padded_image 7 demo_heap ≫= setConst padded_image 8)
    = setConst padded_image 8 demo_heap /\
  exists m', setConst padded_image 8 demo_heap = Ok m'.
Proof.
  split; [demo_backed|].
  apply (setConst_last_wins padded_image demo_heap 2%positive 0
           (replicate 20 (Val 2)) 7 8).
  - demo_backed.
  - simpl. lia.
Defined.

Lemma fills_keep_other_buffers_witness :
  backed small_image demo_heap 1%positive 0 (replicate 12 (Val 1)) /\
  backed view_image demo_heap 2%positive 0 (replicate 20 (Val 2)) /\
  exists m1 m2 l1 l1',
    setConst small_image 7 demo_heap = Ok m1 /\
    setBlack 0 small_image demo_heap = Ok m2 /\
    backed small_image m1 1%positive 0 l1 /\
    length l1 = length (replicate 12 (Val 1 : cell Z)) /\
    backed small_image m2 1%positive 0 l1' /\
    length l1' = length (replicate 12 (Val 1 : cell Z)) /\
    backed view_image m1 2%positive 0 (replicate 20 (Val 2)) /\
    backed view_image m2 2%positive 0 (replicate 20 (Val 2)).
Proof.
  split; [demo_backed|]. split; [demo_backed|].
  apply (fills_keep_other_buffers 0 small_image view_image demo_heap
           1%positive 0 (replicate 12 (Val 1))
           2%positive 0 (replicate 20 (Val 2)) 7).
  - demo_backed.
  - simpl. lia.
  - demo_backed.
  - lia.
Defined.

Lemma setConst_overruns_narrow_stride_witness :
  narrow_heap !! 4%positive = Some (replicate 9 (Val 4)) /\
  0 <= stride narrow_image < w narrow_image /\
  setConst narrow_image 7 narrow_heap = Err UB.
Proof.
  split; [reflexivity|]. split; [simpl; lia|].
  apply (setConst_overruns_narrow_stride narrow_image narrow_heap 4%positive 0
           (replicate 9 (Val 4)) 7).
  - reflexivity.
  - reflexivity.
  - lia.
  - reflexivity.
  - unfold max_int. simpl. lia.
  - simpl. lia.
  - simpl. lia.
Defined.

Lemma ring_and_block_tile_square_witness :
  backed square_image demo_heap 3%positive 0 (replicate 49 (Val 3)) /\
  exists m2,
    (setPixelCirc square_image 3 3 8 demo_heap ≫= setPixel9 square_image 3 3 9)
      = Ok m2 /\
    (setPixel9 square_image 3 3 9 demo_heap ≫= setPixelCirc square_image 3 3 8)
      = Ok m2 /\
    (forall x y, 0 <= x < stride square_image -> 0 <= y < h square_image ->
       get_at square_image x y m2 =
         if bool_decide (-1 <= x - 3 <= 1 /\ -1 <= y - 3 <= 1)
         then Ok (Some (Val 9))
         else if bool_decide (-3 <= x - 3 <= 3 /\ -3 <= y - 3 <= 3)
              then Ok (Some (Val 8))
              else get_at square_image x y demo_heap).
Proof.
  split; [demo_backed|].
  apply (ring_and_block_tile_square square_image demo_heap 3%positive 0
           (replicate 49 (Val 3)) 3 3 8 9).
  - demo_backed.
  - lia.
  - simpl. lia.
  - lia.
  - simpl. lia.
Defined.

Lemma setPixel4_truncates_witness :
  float_to_int fm0_5 = Ok 0 /\ float_floor fm0_5 = Some (-1) /\
  exists m',
    setPixel4 small_image fm0_5 fm0_5 9 demo_heap = Ok m' /\
    get_at small_image 0 0 m' = Ok (Some (Val 9)) /\
    get_at small_image (0 + 1) 0 m' = Ok (Some (Val 9)) /\
    get_at small_image 0 (0 + 1) m' = Ok (Some (Val 9)) /\
    get_at small_image (0 + 1) (0 + 1) m' = Ok (Some (Val 9)).
Proof.
  split; [reflexivity|]. split; [reflexivity|].
  destruct (setPixel4_truncates small_image demo_heap 1%positive 0
              (replicate 12 (Val 1)) fm0_5 fm0_5 9 0 0)
    as ((m' & Hrun & H00 & H10 & H01 & H11 & _) & _).
  - demo_backed.
  - reflexivity.
  - reflexivity.
  - lia.
  - simpl. lia.
  - lia.
  - simpl. lia.
  - exists m'. repeat split; assumption.
Defined.

Lemma setPixel1_truncates_witness :
  float_to_int (float_add fm0_75 half) = Ok 0 /\
  float_floor (float_add fm0_75 half) = Some (-1) /\
  exists m',
    setPixel1 small_image fm0_75 fm0_75 9 demo_heap = Ok m' /\
    get_at small_image 0 0 m' = Ok (Some (Val 9)) /\
    (forall lv : lval, lv <> (1%positive, pixel_index small_image 0 (0, 0)) ->
       load lv m' = load lv demo_heap).
Proof.
  split; [reflexivity|]. split; [reflexivity|].
  apply (setPixel1_truncates small_image demo_heap 1%positive 0
           (replicate 12 (Val 1)) fm0_75 fm0_75 9 0 0).
  - demo_backed.
  - reflexivity.
  - reflexivity.
  - simpl. lia.
  - simpl. lia.
Defined.

Lemma setPixel9_writes_block_witness :
  backed small_image demo_heap 1%positive 0 (replicate 12 (Val 1)) /\
  exists m',
    setPixel9 small_image 1 1 9 demo_heap = Ok m' /\
    forall x y, 0 <= x < stride small_image -> 0 <= y < h small_image ->
      get_at small_image x y m' =
        if bool_decide (-1 <= x - 1 <= 1 /\ -1 <= y - 1 <= 1)
        then Ok (Some (Val 9)) else get_at small_image x y demo_heap.
Proof.
  split; [demo_backed|].
  apply (setPixel9_writes_block small_image demo_heap 1%positive 0
           (replicate 12 (Val 1)) 1 1 9).
  - demo_backed.
  - lia.
  - simpl. lia.
  - lia.
  - simpl. lia.
Defined.

Lemma getClone_deep_copy_witness :
  backed view_image demo_heap 2%positive 0 (replicate 20 (Val 2)) /\
  ownData view_image = false /\
  exists dst m',
    getClone view_image demo_heap = Ok (dst, m') /\
    deep_copy_of view_image dst m' /\
    copies_contents view_image dst demo_heap m'.
Proof.
  split; [demo_backed|]. split; [reflexivity|].
  apply (getClone_deep_copy view_image demo_heap 2%positive 0
           (replicate 20 (Val 2))).
  - demo_backed.
  - left. simpl. lia.
Defined.

Lemma clone_then_destroy_restores_heap_witness :
  getClone view_image demo_heap = Ok (cloned_view, cloned_heap) /\
  ownData cloned_view = true /\
  MinimalImage_destroy cloned_view cloned_heap = Ok demo_heap.
Proof.
  split; [vm_compute; reflexivity|].
  apply (clone_then_destroy_restores_heap view_image demo_heap).
  vm_compute. reflexivity.
Defined.

(** ** The reach of [setBlack] *)

Section setBlack_reach.

Context {T : Type}.
Variable zero : T.
Implicit Types (img : MinimalImage).
Implicit Types (m : gmap block (list (cell T))) (l : list (cell T)).

(** X21: on a valid buffer [setBlack()] writes the [stride * h] elements
    that start at the storage pointer and nothing else: an element of the
    same block before the pointer or past those elements, as a view into a
    larger array can have, and every element of another block, keeps its
    value. *)
Theorem setBlack_stays_in_store img m b ofs l :
  backed img m b ofs l ->
  exists m',
    setBlack zero img m = Ok m' /\
    (forall (k : nat),
       (Z.of_nat k < ofs \/ ofs + stride img * h img <= Z.of_nat k) ->
       load (b, k) m' = load (b, k) m) /\
    (forall (b' : block) (k : nat), b' <> b ->
       load (b', k) m' = load (b', k) m).
Proof.
  intros Hb. eexists. split; [by apply memset_zero_ok|].
  destruct Hb as (Hd & Hl & Ho & Hn & Hlen). split.
  - intros k Hk. rewrite load_insert. cbn [fst snd].
    rewrite decide_True by done. rewrite (load_block _ _ _ _ Hl).
    destruct Hk as [Hk|Hk].
    + apply list_lookup_inserts_lt. lia.
    + apply list_lookup_inserts_ge. rewrite length_replicate. lia.
  - intros b' k Hne. rewrite load_insert. cbn [fst snd].
    by rewrite decide_False.
Qed.

End setBlack_reach.

Lemma setBlack_stays_in_store_witness :
  backed padded_image demo_heap 2%positive 0 (replicate 20 (Val 2)) /\
  exists m',
    setBlack 0 padded_image demo_heap = Ok m' /\
    (forall (k : nat),
       (Z.of_nat k < 0 \/ 0 + stride padded_image * h padded_image <= Z.of_nat k) ->
       load (2%positive, k) m' = load (2%positive, k) demo_heap) /\
    (forall (b' : block) (k : nat), b' <> 2%positive ->
       load (b', k) m' = load (b', k) demo_heap).
Proof.
  split; [demo_backed|].
  apply (setBlack_stays_in_store 0 padded_image demo_heap 2%positive 0
           (replicate 20 (Val 2))).
  demo_backed.
Defined.
